(** * The triangular distribution of jaxampler ([models/utils/triangular.py])

    A shallow embedding of the class [Triangular] and the proofs of its
    specification.

    Numbers are idealised.  An element of an array is an extended real
    number (a real, an infinity or NaN) and the arithmetic on elements is
    exact, with the IEEE conventions for the infinities and NaN; signed zeros
    are not distinguished and nothing is rounded.  A Python [float] held as a
    parameter is a binary64 number, which stands for its exact value. *)

From Stdlib Require Import Floats QArith Qround Qabs DecimalString.
From Stdlib Require Import Reals Qreals Lra Lia Bool List ZArith String Ascii.
Import ListNotations.

Open Scope R_scope.

(** ** Elements of arrays: extended reals *)

Inductive xreal : Type :=
| NaN
| NInf
| Fin (r : R)
| PInf.

Declare Scope xreal_scope.
Delimit Scope xreal_scope with X.
Bind Scope xreal_scope with xreal.

Definition Rltb (a b : R) : bool := if Rlt_dec a b then true else false.
Definition Rleb (a b : R) : bool := if Rle_dec a b then true else false.
Definition Reqb (a b : R) : bool := if Req_dec_T a b then true else false.

(** Comparisons: every comparison with NaN is false. *)
Definition xlt (a b : xreal) : bool :=
  match a, b with
  | NaN, _ | _, NaN => false
  | _, NInf => false
  | NInf, _ => true
  | PInf, _ => false
  | Fin _, PInf => true
  | Fin x, Fin y => Rltb x y
  end.

Definition xle (a b : xreal) : bool :=
  match a, b with
  | NaN, _ | _, NaN => false
  | NInf, _ => true
  | _, PInf => true
  | _, NInf => false
  | PInf, _ => false
  | Fin x, Fin y => Rleb x y
  end.

Definition xeq (a b : xreal) : bool :=
  match a, b with
  | NInf, NInf | PInf, PInf => true
  | Fin x, Fin y => Reqb x y
  | _, _ => false
  end.

Definition xgt (a b : xreal) : bool := xlt b a.
Definition xge (a b : xreal) : bool := xle b a.

(** Arithmetic. *)
Definition xneg (a : xreal) : xreal :=
  match a with
  | NaN => NaN
  | NInf => PInf
  | Fin x => Fin (- x)
  | PInf => NInf
  end.

Definition xadd (a b : xreal) : xreal :=
  match a, b with
  | NaN, _ | _, NaN => NaN
  | NInf, PInf | PInf, NInf => NaN
  | NInf, _ | _, NInf => NInf
  | PInf, _ | _, PInf => PInf
  | Fin x, Fin y => Fin (x + y)
  end.

Definition xsub (a b : xreal) : xreal := xadd a (xneg b).

(** An infinity multiplied by the finite number [y]. *)
Definition scale_inf (pos : bool) (y : R) : xreal :=
  if Reqb y 0 then NaN
  else if Bool.eqb pos (Rltb 0 y) then PInf else NInf.

Definition xmul (a b : xreal) : xreal :=
  match a, b with
  | NaN, _ | _, NaN => NaN
  | Fin x, Fin y => Fin (x * y)
  | PInf, PInf | NInf, NInf => PInf
  | PInf, NInf | NInf, PInf => NInf
  | PInf, Fin y | Fin y, PInf => scale_inf true y
  | NInf, Fin y | Fin y, NInf => scale_inf false y
  end.

Definition xdiv (a b : xreal) : xreal :=
  match a, b with
  | NaN, _ | _, NaN => NaN
  | Fin x, Fin y =>
      if Reqb y 0 then
        if Reqb x 0 then NaN else if Rltb 0 x then PInf else NInf
      else Fin (x / y)
  | Fin _, _ => Fin 0
  | PInf, Fin y => if Rleb 0 y then PInf else NInf
  | NInf, Fin y => if Rleb 0 y then NInf else PInf
  | _, _ => NaN
  end.

(** [x ** 2] *)
Definition xsqr (a : xreal) : xreal := xmul a a.

(** [jnp.log]: [-inf] at zero, NaN below. *)
Definition xlog (a : xreal) : xreal :=
  match a with
  | Fin x => if Rltb x 0 then NaN else if Reqb x 0 then NInf else Fin (ln x)
  | PInf => PInf
  | _ => NaN
  end.

(** [jnp.exp] *)
Definition xexp (a : xreal) : xreal :=
  match a with
  | NaN => NaN
  | NInf => Fin 0
  | Fin x => Fin (exp x)
  | PInf => PInf
  end.

(** [lax.sqrt]: NaN below zero. *)
Definition xsqrt (a : xreal) : xreal :=
  match a with
  | Fin x => if Rltb x 0 then NaN else Fin (sqrt x)
  | PInf => PInf
  | _ => NaN
  end.

(** [jnp.inf] *)
Definition inf : xreal := PInf.

(** [jnp.where] on one element. *)
Definition where_ (c : bool) (a b : xreal) : xreal := if c then a else b.

Notation "a + b" := (xadd a b) : xreal_scope.
Notation "a - b" := (xsub a b) : xreal_scope.
Notation "a * b" := (xmul a b) : xreal_scope.
Notation "a / b" := (xdiv a b) : xreal_scope.
Notation "- a" := (xneg a) : xreal_scope.
Notation "a <? b" := (xlt a b) (at level 70) : xreal_scope.
Notation "a <=? b" := (xle a b) (at level 70) : xreal_scope.
Notation "a >? b" := (xgt a b) (at level 70) : xreal_scope.
Notation "a >=? b" := (xge a b) (at level 70) : xreal_scope.
Notation "a == b" := (xeq a b) (at level 70) : xreal_scope.

(** ** The methods, on one broadcast element

    [jnp.where], the comparisons and the arithmetic all act elementwise, so
    the value of a method at a broadcast index is the function below of the
    elements of [self._low], [self._mode], [self._high] and [x] at that
    index. *)

Section Elementwise.

Variables low mode high : xreal.

Local Open Scope xreal_scope.

Definition logpdf (x : xreal) : xreal :=
  let logpdf_val := where_ (x <? low) (- inf) x in
  let logpdf_val :=
    where_ ((low <=? x) && (x <? mode))
      (xlog (Fin 2) + xlog (x - low) - xlog (high - low) - xlog (mode - low))
      logpdf_val in
  let logpdf_val :=
    where_ (x == mode) (xlog (Fin 2) - xlog (high - low)) logpdf_val in
  let logpdf_val :=
    where_ ((mode <? x) && (x <=? high))
      (xlog (Fin 2) + xlog (high - x) - xlog (high - low) - xlog (high - mode))
      logpdf_val in
  let logpdf_val := where_ (x >? high) (- inf) logpdf_val in
  logpdf_val.

Definition logcdf (x : xreal) : xreal :=
  let logcdf_val := where_ (x <? low) (- inf) x in
  let logcdf_val :=
    where_ ((low <=? x) && (x <? mode))
      (Fin 2 * xlog (x - low) - xlog (high - low) - xlog (mode - low))
      logcdf_val in
  let logcdf_val := where_ (x == mode) (xlog (Fin (1/2))) logcdf_val in
  let logcdf_val :=
    where_ ((mode <? x) && (x <? high))
      (xlog (Fin 1 - (xsqr (high - x) / ((high - low) * (high - mode)))))
      logcdf_val in
  let logcdf_val := where_ (x >=? high) (xlog (Fin 1)) logcdf_val in
  logcdf_val.

(** Modelled from the spec: the method [cdf] of the base class [ContinuousRV],
    which is not part of this file; it is the exponential of [logcdf]. *)
Definition cdf (x : xreal) : xreal := xexp (logcdf x).

Definition cdfinv (x : xreal) : xreal :=
  let _Fc := cdf mode in
  let cdfinv_val :=
    where_ (x <? _Fc)
      (low + xsqrt (x * (mode - low) * (high - low)))
      (high - xsqrt ((Fin 1 - x) * (high - low) * (high - mode))) in
  cdfinv_val.

End Elementwise.

(** ** Python's text of numbers *)

(** [str] of an [int]. *)
Definition int_str (z : Z) : string := NilZero.string_of_int (Z.to_int z).

Definition Qltb (a b : Q) : bool :=
  match Qcompare a b with Lt => true | _ => false end.

Definition Qeqb (a b : Q) : bool :=
  match Qcompare a b with Eq => true | _ => false end.

(** The value [m * 2^e] of a finite float. *)
Definition dyadic (m : positive) (e : Z) : Q :=
  Qred (inject_Z (Zpos m) * Qpower 2 e).

(** [rounds_to m e d]: the decimal [d] reads back as the float [m * 2^e]
    (round to nearest, ties to the even mantissa). *)
Definition rounds_to (m : positive) (e : Z) (d : Q) : bool :=
  let v := dyadic m e in
  let half_up := Qpower 2 (e - 1) in
  let half_down :=
    if ((Zpos m =? 2 ^ 52) && (-1074 <? e))%Z then Qpower 2 (e - 2)
    else Qpower 2 (e - 1) in
  let lo := Qred (v - half_down) in
  let hi := Qred (v + half_up) in
  (Qltb lo d && Qltb d hi) || (Z.even (Zpos m) && (Qeqb d lo || Qeqb d hi)).

(** The position of the decimal point: the least exponent from [k] on
    whose power of ten is above [v]. *)
Fixpoint decimal_point (fuel : nat) (v : Q) (k : Z) : Z :=
  match fuel with
  | O => k
  | S fuel' => if Qltb v (Qpower 10 k) then k else decimal_point fuel' v (k + 1)
  end.

Definition Qdist (a b : Q) : Q := Qabs (a - b).

(** The decimal of [n] digits nearest to [v] that reads back as the float,
    as its integer of digits, if there is one. *)
Definition digits_of_length (m : positive) (e : Z) (k : Z) (n : Z) : option Z :=
  let v := dyadic m e in
  let unit := Qpower 10 (k - n) in
  let d1 := Qfloor (v / unit) in
  let d2 := (d1 + 1)%Z in
  let q1 := Qred (inject_Z d1 * unit) in
  let q2 := Qred (inject_Z d2 * unit) in
  match rounds_to m e q1, rounds_to m e q2 with
  | true, false => Some d1
  | false, true => Some d2
  | false, false => None
  | true, true =>
      match Qcompare (Qdist q1 v) (Qdist q2 v) with
      | Lt => Some d1
      | Gt => Some d2
      | Eq => Some (if Z.even d1 then d1 else d2)
      end
  end.

(** The shortest such decimal: the first length from [n] on. *)
Fixpoint shortest_digits (fuel : nat) (m : positive) (e : Z) (k : Z) (n : Z)
  : Z * Z :=
  match fuel with
  | O => (Zpos m, n)
  | S fuel' =>
      match digits_of_length m e k n with
      | Some d => (d, n)
      | None => shortest_digits fuel' m e k (n + 1)
      end
  end.

Fixpoint strip_zeros_rev (l : list ascii) : list ascii :=
  match l with
  | "0"%char :: l' => strip_zeros_rev l'
  | _ => l
  end.

Definition strip_trailing_zeros (s : string) : string :=
  string_of_list_ascii (rev (strip_zeros_rev (rev (list_ascii_of_string s)))).

Fixpoint zeros (n : nat) : string :=
  match n with O => EmptyString | S n' => String "0" (zeros n') end.

Definition exponent_str (x : Z) : string :=
  let a := int_str (Z.abs x) in
  ((if (x <? 0)%Z then "-" else "+") ++
   (if (String.length a <? 2)%nat then "0" ++ a else a))%string.

(** Layout of the digits [ds] with the decimal point before digit [decpt],
    as [repr] lays a float out. *)
Definition layout (ds : string) (decpt : Z) : string :=
  let len := Z.of_nat (String.length ds) in
  if ((decpt <? -3) || (16 <? decpt))%Z then
    (substring 0 1 ds ++
     (if (1 <? len)%Z then "." ++ substring 1 (String.length ds - 1) ds else "") ++
     "e" ++ exponent_str (decpt - 1))%string
  else if (decpt <=? 0)%Z then
    ("0." ++ zeros (Z.to_nat (- decpt)) ++ ds)%string
  else if (len <=? decpt)%Z then
    (ds ++ zeros (Z.to_nat (decpt - len)) ++ ".0")%string
  else
    (substring 0 (Z.to_nat decpt) ds ++ "." ++
     substring (Z.to_nat decpt) (String.length ds - Z.to_nat decpt) ds)%string.

(** [repr] (and [str]) of a [float]: the shortest decimal that reads back. *)
Definition float_str (f : float) : string :=
  match Prim2SF f with
  | S754_nan => "nan"
  | S754_infinity s => if s then "-inf" else "inf"
  | S754_zero s => if s then "-0.0" else "0.0"
  | S754_finite s m e =>
      let k := decimal_point 700 (dyadic m e) (-330) in
      let '(d, n) := shortest_digits 17 m e k 1 in
      let all := int_str d in
      let decpt := (k + (Z.of_nat (String.length all) - n))%Z in
      ((if s then "-" else "") ++ layout (strip_trailing_zeros all) decpt)%string
  end.

(** ** Parameters as Python holds them *)

(** An [ArrayLike] argument: a Python [int], a Python [float], or a
    one-dimensional array. *)
Inductive ArrayLike : Type :=
| PyInt (z : Z)
| PyFloat (f : float)
| JaxArray (l : list float).

(** The number a float stands for. *)
Definition float_val (f : float) : xreal :=
  match Prim2SF f with
  | S754_nan => NaN
  | S754_infinity s => if s then NInf else PInf
  | S754_zero _ => Fin 0
  | S754_finite s m e =>
      Fin (Q2R (if s then - dyadic m e else dyadic m e)%Q)
  end.

(** The elements of an argument, a scalar having one. *)
Definition values (a : ArrayLike) : list xreal :=
  match a with
  | PyInt z => [Fin (IZR z)]
  | PyFloat f => [float_val f]
  | JaxArray l => map float_val l
  end.

(** ** Exceptions *)

Inductive exn : Type :=
| AssertionError (msg : string)
| BroadcastError
| TypeError.

Inductive result (A : Type) : Type :=
| Ok (a : A)
| Raise (e : exn).
Arguments Ok {A} a.
Arguments Raise {A} e.

Definition bind {A B} (r : result A) (k : A -> result B) : result B :=
  match r with
  | Ok a => k a
  | Raise e => Raise e
  end.

Notation "x <- r ;; k" := (bind r (fun x => k))
  (at level 61, r at next level, right associativity).
Notation "r ;; k" := (bind r (fun _ => k))
  (at level 61, right associativity).

(** [assert c, msg], with assertions enabled. *)
Definition assert_ (c : bool) (msg : string) : result unit :=
  if c then Ok tt else Raise (AssertionError msg).

(** ** Broadcasting comparisons *)

(** [a <= b] on arrays of one dimension: equal lengths pair up, a length of
    one stretches, other lengths do not broadcast. *)
Definition less_equal (a b : ArrayLike) : result (list bool) :=
  let va := values a in
  let vb := values b in
  if (List.length va =? List.length vb)%nat then
    Ok (map (fun p => xle (fst p) (snd p)) (combine va vb))
  else
    match va, vb with
    | [x], _ => Ok (map (fun y => xle x y) vb)
    | _, [y] => Ok (map (fun x => xle x y) va)
    | _, _ => Raise BroadcastError
    end.

(** [jnp.all] *)
Definition jnp_all (c : list bool) : bool := forallb (fun b => b) c.

(** ** The class *)

Record Triangular : Type := {
  _low : ArrayLike;
  _mode : ArrayLike;
  _high : ArrayLike;
  _name : option string
}.

Definition check_params (self : Triangular) : result unit :=
  c <- less_equal (_low self) (_high self) ;;
  assert_ (jnp_all c) "low must be less than or equal to high" ;;
  c <- less_equal (_low self) (_mode self) ;;
  assert_ (jnp_all c) "low must be less than or equal to mid" ;;
  c <- less_equal (_mode self) (_high self) ;;
  assert_ (jnp_all c) "mid must be less than or equal to high".

(** Modelled from the spec: the constructor of the base class [ContinuousRV],
    which is not part of this file; it stores the name and does nothing
    else. *)
Definition ContinuousRV_init (self : Triangular) (name : option string)
  : result Triangular :=
  Ok {| _low := _low self; _mode := _mode self; _high := _high self;
        _name := name |}.

Definition __init__ (low high mode : ArrayLike) (name : option string)
  : result Triangular :=
  let self := {| _low := low; _mode := mode; _high := high; _name := None |} in
  check_params self ;;
  ContinuousRV_init self name.

(** A call of the class with the numbers [args] given by position and the
    name given apart: the positional arguments bind to [low], [high], [mode]
    in the order of the signature and the rest take the defaults [0], [1],
    [0.5].  More than three numbers do not fit the signature. *)
Definition Triangular_call (args : list ArrayLike) (name : option string)
  : result Triangular :=
  match args with
  | [] => __init__ (PyInt 0) (PyInt 1) (PyFloat 0.5) name
  | [low] => __init__ low (PyInt 1) (PyFloat 0.5) name
  | [low; high] => __init__ low high (PyFloat 0.5) name
  | [low; high; mode] => __init__ low high mode name
  | _ => Raise TypeError
  end.

Section Repr.

(** The text of an array is the array library's. *)
Variable array_str : list float -> string.

(** [str] of a parameter, as an f-string inserts it. *)
Definition str (a : ArrayLike) : string :=
  match a with
  | PyInt z => int_str z
  | PyFloat f => float_str f
  | JaxArray l => array_str l
  end.

Definition __repr__ (self : Triangular) : string :=
  let string := ("Triangular(low=" ++ str (_low self) ++ ", mode=" ++
                 str (_mode self) ++ ", high=" ++ str (_high self))%string in
  let string :=
    match _name self with
    | Some name => (string ++ ", name=" ++ name)%string
    | None => string
    end in
  (string ++ ")")%string.

End Repr.

(** ** The specification's reading of the formulas *)

(** A valid parameter triple: [low <= mode <= high]. *)
Definition valid (low mode high : xreal) : Prop :=
  xle low mode = true /\ xle mode high = true.

(** The five cases of logCDF, the later ones first; [None] when no case
    applies. *)
Definition logCDF_spec (low mode high x : xreal) : option xreal :=
  if xge x high then Some (Fin 0)
  else if xlt mode x && xlt x high then
    Some (xlog (Fin 1 - xsqr (high - x) / ((high - low) * (high - mode))))%X
  else if xeq x mode then Some (Fin (ln (1/2)))
  else if xle low x && xlt x mode then
    Some (Fin 2 * xlog (x - low) - xlog (high - low) - xlog (mode - low))%X
  else if xlt x low then Some NInf
  else None.

(** The five cases of logDensity, as a relation between [x] and the value. *)
Inductive logDensity_spec (low mode high x : xreal) : xreal -> Prop :=
| LD_below :
    xlt x low = true -> logDensity_spec low mode high x NInf
| LD_rising :
    xle low x = true -> xlt x mode = true ->
    logDensity_spec low mode high x
      (Fin (ln 2) + xlog (x - low) - xlog (high - low) - xlog (mode - low))%X
| LD_mode :
    xeq x mode = true ->
    logDensity_spec low mode high x (Fin (ln 2) - xlog (high - low))%X
| LD_falling :
    xlt mode x = true -> xle x high = true ->
    logDensity_spec low mode high x
      (Fin (ln 2) + xlog (high - x) - xlog (high - low) - xlog (high - mode))%X
| LD_above :
    xgt x high = true -> logDensity_spec low mode high x NInf.

(** inverseCDF as the specification words it, with a branch on [p < Fc]. *)
Definition inverseCDF_spec (low mode high p : xreal) : xreal :=
  let Fc := xexp (logcdf low mode high mode) in
  if xlt p Fc then (low + xsqrt (p * (mode - low) * (high - low)))%X
  else (high - xsqrt ((Fin 1 - p) * (high - low) * (high - mode)))%X.

(** ** The ordering invariant, element by element *)

(** The number of elements of an argument, a scalar having one. *)
Definition size (a : ArrayLike) : nat := List.length (values a).

(** Two arguments broadcast when their sizes agree or one of them is one. *)
Definition broadcastable (a b : ArrayLike) : Prop :=
  size a = size b \/ size a = 1%nat \/ size b = 1%nat.

(** The element of [a] that index [i] of a broadcast reads. *)
Definition item (a : ArrayLike) (i : nat) : xreal :=
  match values a with
  | [x] => x
  | l => nth i l NaN
  end.

(** The number of elements of the broadcast of [a] and [b]. *)
Definition broadcast_size (a b : ArrayLike) : nat :=
  if (size a =? 1)%nat then size b else size a.

(** [a <= b] holds at every element of the broadcast. *)
Definition all_le (a b : ArrayLike) : Prop :=
  forall i, (i < broadcast_size a b)%nat -> xle (item a i) (item b i) = true.

(** [low <= mode <= high] at every broadcast element, as the constructor
    checks it: each of the three comparisons on its own broadcast. *)
Definition ordered (low mode high : ArrayLike) : Prop :=
  all_le low high /\ all_le low mode /\ all_le mode high.

(** ** Closed forms *)

(** The density of the triangular distribution on [low..high] with its peak
    at [mode], as mathematics has it: the reference that [logpdf] is compared
    with. *)
Definition triangular_density (low mode high x : R) : R :=
  if Rlt_dec x low then 0
  else if Rlt_dec x mode then 2 * (x - low) / ((high - low) * (mode - low))
  else if Req_dec_T x mode then 2 / (high - low)
  else if Rle_dec x high then 2 * (high - x) / ((high - low) * (high - mode))
  else 0.

(** The CDF as the code computes it, in closed form: the CDF of the
    triangular distribution, except that at the mode (below the upper bound)
    it is one half. *)
Definition cdf_value (low mode high x : R) : R :=
  if Rlt_dec x low then 0
  else if Rle_dec high x then 1
  else if Rlt_dec x mode then
    (x - low) * (x - low) / ((high - low) * (mode - low))
  else if Req_dec_T x mode then 1 / 2
  else 1 - (high - x) * (high - x) / ((high - low) * (high - mode)).

(** [cdfinv] on a probability, in closed form: the threshold is the value
    of the CDF above at the mode. *)
Definition quantile_value (low mode high p : R) : R :=
  if Rlt_dec p (cdf_value low mode high mode)
  then low + sqrt (p * (mode - low) * (high - low))
  else high - sqrt ((1 - p) * (high - low) * (high - mode)).

(** ** Comparisons *)

Lemma Rltb_true (a b : R) : Rltb a b = true <-> a < b.
Proof. unfold Rltb; destruct (Rlt_dec a b); split; intros; try lra; easy. Qed.

Lemma Rltb_false (a b : R) : Rltb a b = false <-> b <= a.
Proof. unfold Rltb; destruct (Rlt_dec a b); split; intros; try lra; easy. Qed.

Lemma Rleb_true (a b : R) : Rleb a b = true <-> a <= b.
Proof. unfold Rleb; destruct (Rle_dec a b); split; intros; try lra; easy. Qed.

Lemma Rleb_false (a b : R) : Rleb a b = false <-> b < a.
Proof. unfold Rleb; destruct (Rle_dec a b); split; intros; try lra; easy. Qed.

Lemma Reqb_true (a b : R) : Reqb a b = true <-> a = b.
Proof. unfold Reqb; destruct (Req_dec_T a b); split; intros; try lra; easy. Qed.

Lemma Reqb_false (a b : R) : Reqb a b = false <-> a <> b.
Proof. unfold Reqb; destruct (Req_dec_T a b); split; intros; try lra; easy. Qed.

(** Settles every comparison of two reals in the goal that linear arithmetic
    decides. *)
Ltac rcmp :=
  repeat match goal with
    | |- context [Rltb ?a ?b] =>
        first [ replace (Rltb a b) with true by (symmetry; apply Rltb_true; lra)
              | replace (Rltb a b) with false by (symmetry; apply Rltb_false; lra) ]
    | |- context [Rleb ?a ?b] =>
        first [ replace (Rleb a b) with true by (symmetry; apply Rleb_true; lra)
              | replace (Rleb a b) with false by (symmetry; apply Rleb_false; lra) ]
    | |- context [Reqb ?a ?b] =>
        first [ replace (Reqb a b) with true by (symmetry; apply Reqb_true; lra)
              | replace (Reqb a b) with false by (symmetry; apply Reqb_false; lra) ]
    end.

(** Turns the comparisons of reals among the hypotheses into propositions. *)
Ltac rhyp :=
  repeat match goal with
    | H : Rltb _ _ = true |- _ => apply Rltb_true in H
    | H : Rltb _ _ = false |- _ => apply Rltb_false in H
    | H : Rleb _ _ = true |- _ => apply Rleb_true in H
    | H : Rleb _ _ = false |- _ => apply Rleb_false in H
    | H : Reqb _ _ = true |- _ => apply Reqb_true in H
    | H : Reqb _ _ = false |- _ => apply Reqb_false in H
    end.

Lemma xlt_not_le (a b : xreal) :
  a <> NaN -> b <> NaN -> xlt a b = negb (xle b a).
Proof.
  destruct a, b; simpl; try congruence; intros _ _.
  destruct (Rleb r0 r) eqn:E; rhyp; [apply Rltb_false | apply Rltb_true]; lra.
Qed.

Lemma xle_lt_eq (a b : xreal) : xle a b = xlt a b || xeq a b.
Proof.
  destruct a, b; simpl; try reflexivity.
  destruct (Rltb r r0) eqn:E1, (Reqb r r0) eqn:E2; rhyp; simpl;
    try (apply Rleb_true; lra); apply Rleb_false; lra.
Qed.

Lemma xeq_sym (a b : xreal) : xeq a b = xeq b a.
Proof.
  destruct a, b; simpl; try reflexivity.
  destruct (Reqb r0 r) eqn:E; rhyp; [apply Reqb_true | apply Reqb_false]; auto.
Qed.

Lemma xle_not_nan (a b : xreal) : xle a b = true -> a <> NaN /\ b <> NaN.
Proof. destruct a, b; simpl; intros; try discriminate; split; discriminate. Qed.

Lemma valid_not_nan (low mode high : xreal) :
  valid low mode high -> low <> NaN /\ mode <> NaN /\ high <> NaN.
Proof.
  intros [H1 H2]. apply xle_not_nan in H1, H2. tauto.
Qed.

(** With valid parameters, a number falls under one of the five cases. *)
Lemma five_cases (low mode high x : xreal) :
  valid low mode high -> x <> NaN ->
  xlt x low = false ->
  xle low x && xlt x mode = false ->
  xeq x mode = false ->
  xlt mode x && xlt x high = false ->
  xge x high = true.
Proof.
  intros Hv Hx H1 H2 H3 H4.
  destruct (valid_not_nan _ _ _ Hv) as (Hl & Hm & Hh).
  unfold xge.
  rewrite (xlt_not_le x low) in H1 by assumption.
  apply negb_false_iff in H1. rewrite H1 in H2. simpl in H2.
  rewrite (xlt_not_le x mode) in H2 by assumption.
  apply negb_false_iff in H2.
  rewrite xle_lt_eq, (xeq_sym mode x), H3, orb_false_r in H2.
  rewrite H2 in H4. simpl in H4.
  rewrite (xlt_not_le x high) in H4 by assumption.
  now apply negb_false_iff in H4.
Qed.

Lemma xlog_half : xlog (Fin (1/2)) = Fin (ln (1/2)).
Proof. unfold xlog. rcmp. reflexivity. Qed.

Lemma xlog_one : xlog (Fin 1) = Fin 0.
Proof. unfold xlog. rcmp. now rewrite ln_1. Qed.

Lemma xlog_two : xlog (Fin 2) = Fin (ln 2).
Proof. unfold xlog. rcmp. reflexivity. Qed.

(** ** logCDF *)

(** C1: with valid parameters, logcdf is the five-case formula of the
    specification at every number [x], each case selected on the element and
    a later case taking priority where two apply. *)
Theorem logcdf_piecewise (low mode high x : xreal) :
  valid low mode high -> x <> NaN ->
  logCDF_spec low mode high x = Some (logcdf low mode high x).
Proof.
  intros Hv Hx. unfold logCDF_spec, logcdf, where_, inf.
  destruct (xge x high) eqn:E5; [now rewrite xlog_one|].
  destruct (xlt mode x && xlt x high) eqn:E4; [reflexivity|].
  destruct (xeq x mode) eqn:E3; [now rewrite xlog_half|].
  destruct (xle low x && xlt x mode) eqn:E2; [reflexivity|].
  destruct (xlt x low) eqn:E1; [reflexivity|].
  rewrite (five_cases low mode high x) in E5 by assumption. discriminate.
Qed.

(** ** logDensity *)

(** Case analysis on every extended real of the context, leaving comparisons
    of reals that linear arithmetic settles. *)
Ltac xorder :=
  unfold valid, xgt, xge in *;
  repeat match goal with H : _ /\ _ |- _ => destruct H end;
  repeat match goal with x : xreal |- _ => destruct x end;
  simpl in *; try discriminate; try reflexivity;
  rhyp; rcmp; simpl; try reflexivity; try lra.

Lemma logpdf_below (low mode high x : xreal) :
  valid low mode high ->
  xlt x low = true -> logpdf low mode high x = NInf.
Proof.
  intros Hv H. unfold logpdf, where_, inf.
  replace (xgt x high) with false by xorder.
  replace (xlt mode x && xle x high) with false by xorder.
  replace (xeq x mode) with false by xorder.
  replace (xle low x && xlt x mode) with false by xorder.
  now rewrite H.
Qed.

Lemma logpdf_rising (low mode high x : xreal) :
  valid low mode high ->
  xle low x = true -> xlt x mode = true ->
  logpdf low mode high x =
    (Fin (ln 2) + xlog (x - low) - xlog (high - low) - xlog (mode - low))%X.
Proof.
  intros Hv H1 H2. unfold logpdf, where_.
  replace (xgt x high) with false by xorder.
  replace (xlt mode x && xle x high) with false by xorder.
  replace (xeq x mode) with false by xorder.
  now rewrite H1, H2, xlog_two.
Qed.

Lemma logpdf_mode (low mode high x : xreal) :
  valid low mode high ->
  xeq x mode = true ->
  logpdf low mode high x = (Fin (ln 2) - xlog (high - low))%X.
Proof.
  intros Hv H. unfold logpdf, where_.
  replace (xgt x high) with false by xorder.
  replace (xlt mode x && xle x high) with false by xorder.
  now rewrite H, xlog_two.
Qed.

Lemma logpdf_falling (low mode high x : xreal) :
  valid low mode high ->
  xlt mode x = true -> xle x high = true ->
  logpdf low mode high x =
    (Fin (ln 2) + xlog (high - x) - xlog (high - low) - xlog (high - mode))%X.
Proof.
  intros Hv H1 H2. unfold logpdf, where_.
  replace (xgt x high) with false by xorder.
  now rewrite H1, H2, xlog_two.
Qed.

Lemma logpdf_above (low mode high x : xreal) :
  xgt x high = true -> logpdf low mode high x = NInf.
Proof. intros H. unfold logpdf, where_, inf. now rewrite H. Qed.

Lemma logDensity_cases (low mode high x : xreal) :
  valid low mode high -> x <> NaN ->
  xlt x low = true \/ (xle low x = true /\ xlt x mode = true) \/
  xeq x mode = true \/ (xlt mode x = true /\ xle x high = true) \/
  xgt x high = true.
Proof.
  intros Hvalid Hx. destruct (valid_not_nan _ _ _ Hvalid) as (Hl & Hm & Hh).
  destruct (xlt x low) eqn:E1; [now left|right].
  rewrite xlt_not_le in E1 by assumption. apply negb_false_iff in E1.
  destruct (xlt x mode) eqn:E2; [now left|right].
  rewrite xlt_not_le in E2 by assumption. apply negb_false_iff in E2.
  rewrite xle_lt_eq, (xeq_sym mode x) in E2.
  destruct (xeq x mode) eqn:E3; [now left|right].
  rewrite orb_false_r in E2.
  unfold xgt. rewrite (xlt_not_le high x) by assumption.
  destruct (xle x high); [now left|now right].
Qed.

(** C5: with valid parameters, logpdf at a number [x] is the value of the
    five-case formula of the specification, the only one the formula admits;
    out of the range [low..high] that value is [-inf], a result and not an
    exception. *)
Theorem logpdf_piecewise (low mode high x : xreal) :
  valid low mode high -> x <> NaN ->
  logDensity_spec low mode high x (logpdf low mode high x) /\
  (forall v, logDensity_spec low mode high x v -> v = logpdf low mode high x) /\
  (xlt x low = true \/ xgt x high = true -> logpdf low mode high x = NInf).
Proof.
  intros Hv Hx. split; [|split].
  - destruct (logDensity_cases low mode high x Hv Hx)
      as [H | [[H1 H2] | [H | [[H1 H2] | H]]]].
    + rewrite logpdf_below by assumption. now constructor.
    + rewrite logpdf_rising by assumption. now constructor.
    + rewrite logpdf_mode by assumption. now constructor.
    + rewrite logpdf_falling by assumption. now constructor.
    + rewrite logpdf_above by assumption. now apply LD_above.
  - intros v Hs. destruct Hs.
    + now rewrite logpdf_below.
    + now rewrite logpdf_rising.
    + now rewrite logpdf_mode.
    + now rewrite logpdf_falling.
    + now rewrite logpdf_above.
  - intros [H | H]; [now apply logpdf_below | now apply logpdf_above].
Qed.

(** ** The CDF at the mode and inverseCDF *)

(** Evaluates a method at concrete numbers, as far as linear arithmetic
    settles the comparisons. *)
Ltac xeval :=
  unfold cdfinv, cdf, logcdf, logpdf, inf, xgt, xge;
  repeat (cbn [xlt xle xeq xadd xsub xneg xmul xdiv xsqr xlog xexp xsqrt
                 scale_inf where_ andb orb negb Bool.eqb];
          rcmp).

Lemma logcdf_at_mode (low mode high : xreal) :
  xle low mode = true -> xlt mode high = true ->
  logcdf low mode high mode = Fin (ln (1/2)).
Proof.
  intros H1 H2. unfold logcdf, where_.
  replace (xge mode high) with false by xorder.
  replace (xlt mode mode && xlt mode high) with false by xorder.
  replace (xeq mode mode) with true by xorder.
  apply xlog_half.
Qed.

Lemma cdf_at_mode (low mode high : xreal) :
  xle low mode = true -> xlt mode high = true ->
  cdf low mode high mode = Fin (1/2).
Proof.
  intros H1 H2. unfold cdf. rewrite logcdf_at_mode by assumption.
  simpl. now rewrite exp_ln by lra.
Qed.

Lemma xlt_le (a b : xreal) : xlt a b = true -> xle a b = true.
Proof. intros H. rewrite xle_lt_eq, H. reflexivity. Qed.

(** C6: inverseCDF is the two-branch formula of the specification, the branch
    taken on [p < Fc] with [Fc] the exponential of logCDF at the mode. *)
Theorem cdfinv_formula (low mode high p : xreal) :
  cdfinv low mode high p = inverseCDF_spec low mode high p.
Proof.
  unfold cdfinv, inverseCDF_spec, cdf, where_.
  destruct (xlt p (xexp (logcdf low mode high mode))); reflexivity.
Qed.

(** C8: with [low < mode < high] the threshold [Fc] computed by inverseCDF is
    one half wherever the mode lies, and the lower branch is taken exactly
    when [p < 1/2]. *)
Theorem cdfinv_threshold_half (low mode high : xreal) :
  xlt low mode = true -> xlt mode high = true ->
  cdf low mode high mode = Fin (1/2) /\
  forall p,
    cdfinv low mode high p =
      if xlt p (Fin (1/2))
      then (low + xsqrt (p * (mode - low) * (high - low)))%X
      else (high - xsqrt ((Fin 1 - p) * (high - low) * (high - mode)))%X.
Proof.
  intros H1 H2. apply xlt_le in H1.
  split; [now apply cdf_at_mode|].
  intros p. unfold cdfinv, where_. now rewrite cdf_at_mode.
Qed.

(** The closed forms of [cdf] on the two sides of the mode. *)
Lemma cdf_below_mode (low mode high x : R) :
  low < x < mode -> mode < high ->
  cdf (Fin low) (Fin mode) (Fin high) (Fin x) =
    Fin ((x - low) * (x - low) / ((high - low) * (mode - low))).
Proof.
  intros Hx Hm. xeval. f_equal.
  replace (2 * ln (x + - low) + - ln (high + - low) + - ln (mode + - low))
    with (ln ((x - low) * (x - low) / ((high - low) * (mode - low)))).
  - apply exp_ln. apply Rdiv_lt_0_compat; nra.
  - unfold Rdiv. rewrite ln_mult, ln_mult, ln_Rinv, ln_mult; try nra.
    + replace (x + - low) with (x - low) by lra.
      replace (high + - low) with (high - low) by lra.
      replace (mode + - low) with (mode - low) by lra. lra.
    + apply Rinv_0_lt_compat; nra.
Qed.

Lemma cdf_above_mode (low mode high x : R) :
  low <= mode -> mode < x < high ->
  cdf (Fin low) (Fin mode) (Fin high) (Fin x) =
    Fin (1 - (high - x) * (high - x) / ((high - low) * (high - mode))).
Proof.
  intros Hl Hx.
  assert (Hd : 0 < (high - low) * (high - mode)) by nra.
  assert (Hq : (high - x) * (high - x) / ((high - low) * (high - mode)) < 1).
  { apply (Rmult_lt_reg_r ((high - low) * (high - mode))); [exact Hd|].
    unfold Rdiv. rewrite Rmult_assoc, Rinv_l by lra. nra. }
  unfold cdf, logcdf, inf, xge. cbn [xlt xle xeq where_]. rcmp.
  cbn [andb xsub xneg xadd xmul xsqr xdiv].
  replace (Reqb ((high + - low) * (high + - mode)) 0) with false
    by (symmetry; apply Reqb_false; nra).
  replace ((high + - x) * (high + - x) / ((high + - low) * (high + - mode)))
    with ((high - x) * (high - x) / ((high - low) * (high - mode)))
    by (unfold Rminus; reflexivity).
  xeval. f_equal. apply exp_ln. lra.
Qed.

(** ** The round trip through [cdf] and [cdfinv] *)

Lemma cdfinv_lower (low mode high p : R) :
  low <= mode -> mode < high -> 0 <= p < 1/2 ->
  cdfinv (Fin low) (Fin mode) (Fin high) (Fin p) =
    Fin (low + sqrt (p * (mode - low) * (high - low))).
Proof.
  intros Hl Hm Hp. unfold cdfinv.
  rewrite cdf_at_mode by (simpl; (apply Rleb_true || apply Rltb_true); lra).
  assert (0 <= p * (mode + - low) * (high + - low))
    by (apply Rmult_le_pos; [apply Rmult_le_pos|]; lra).
  xeval. reflexivity.
Qed.

Lemma cdfinv_upper (low mode high p : R) :
  low <= mode -> mode < high -> 1/2 <= p <= 1 ->
  cdfinv (Fin low) (Fin mode) (Fin high) (Fin p) =
    Fin (high - sqrt ((1 - p) * (high - low) * (high - mode))).
Proof.
  intros Hl Hm Hp. unfold cdfinv.
  rewrite cdf_at_mode by (simpl; (apply Rleb_true || apply Rltb_true); lra).
  assert (0 <= (1 + - p) * (high + - low) * (high + - mode))
    by (apply Rmult_le_pos; [apply Rmult_le_pos|]; lra).
  xeval. reflexivity.
Qed.

(** Below the mode the round trip holds as long as the computed CDF stays
    under the threshold one half. *)
Lemma cdfinv_cdf_below (low mode high x : R) :
  low < x < mode -> mode < high ->
  (x - low) * (x - low) / ((high - low) * (mode - low)) < 1/2 ->
  cdfinv (Fin low) (Fin mode) (Fin high)
    (cdf (Fin low) (Fin mode) (Fin high) (Fin x)) = Fin x.
Proof.
  intros Hx Hm Hq. rewrite cdf_below_mode by assumption.
  rewrite cdfinv_lower; try lra.
  - f_equal.
    replace ((x - low) * (x - low) / ((high - low) * (mode - low)) *
               (mode - low) * (high - low))
      with ((x - low) * (x - low)) by (field; lra).
    rewrite sqrt_square by lra. lra.
  - split; [|assumption].
    apply Rlt_le, Rdiv_lt_0_compat; nra.
Qed.

(** Above the mode it holds as long as the computed CDF is at least one
    half. *)
Lemma cdfinv_cdf_above (low mode high x : R) :
  low <= mode -> mode < x < high ->
  (high - x) * (high - x) / ((high - low) * (high - mode)) <= 1/2 ->
  cdfinv (Fin low) (Fin mode) (Fin high)
    (cdf (Fin low) (Fin mode) (Fin high) (Fin x)) = Fin x.
Proof.
  intros Hl Hx Hq. rewrite cdf_above_mode by assumption.
  assert (0 < (high - x) * (high - x) / ((high - low) * (high - mode)))
    by (apply Rdiv_lt_0_compat; nra).
  rewrite cdfinv_upper; try lra.
  f_equal.
  replace ((1 - (1 - (high - x) * (high - x) / ((high - low) * (high - mode)))) *
             (high - low) * (high - mode))
    with ((high - x) * (high - x)) by (field; lra).
  rewrite sqrt_square by lra. lra.
Qed.

(** X2: the examples of the specification, parameters [(0, 0.5, 1)] at
    [x = 0.3] and at [x = 0.7]: the round trip gives [x] back. *)
Lemma cdfinv_cdf_default_examples :
  cdfinv (Fin 0) (Fin (1/2)) (Fin 1)
    (cdf (Fin 0) (Fin (1/2)) (Fin 1) (Fin (3/10))) = Fin (3/10) /\
  cdfinv (Fin 0) (Fin (1/2)) (Fin 1)
    (cdf (Fin 0) (Fin (1/2)) (Fin 1) (Fin (7/10))) = Fin (7/10).
Proof.
  split; [apply cdfinv_cdf_below | apply cdfinv_cdf_above]; lra.
Qed.

(** X1: with the mode half-way between the bounds the round trip holds on
    the whole open interval. *)
Lemma cdfinv_cdf_symmetric (low high x : R) :
  low < x < high ->
  cdfinv (Fin low) (Fin ((low + high) / 2)) (Fin high)
    (cdf (Fin low) (Fin ((low + high) / 2)) (Fin high) (Fin x)) = Fin x.
Proof.
  intros Hx. set (mode := (low + high) / 2).
  assert (Hm : low < mode < high) by (unfold mode; lra).
  assert (Hw : high - low = 2 * (mode - low)) by (unfold mode; lra).
  assert (Hw' : high - mode = mode - low) by (unfold mode; lra).
  destruct (Rtotal_order x mode) as [Hlt | [Heq | Hgt]].
  - apply cdfinv_cdf_below; try lra.
    apply (Rmult_lt_reg_r ((high - low) * (mode - low))); [nra|].
    unfold Rdiv. rewrite Rmult_assoc, Rinv_l by nra. nra.
  - subst x. rewrite cdf_at_mode
      by (simpl; (apply Rleb_true || apply Rltb_true); lra).
    rewrite cdfinv_upper by lra. f_equal.
    replace ((1 - 1 / 2) * (high - low) * (high - mode))
      with ((high - mode) * (high - mode)) by nra.
    rewrite sqrt_square by lra. lra.
  - apply cdfinv_cdf_above; try lra.
    apply (Rmult_le_reg_r ((high - low) * (high - mode))); [nra|].
    unfold Rdiv. rewrite Rmult_assoc, Rinv_l by nra. nra.
Qed.

(** ** Where the constant at the mode breaks the laws of a CDF

    The branch [x == mode] of [logcdf] gives [ln 0.5] whatever the
    parameters, while the two neighbouring branches tend to
    [ln ((mode - low) / (high - low))] at the mode.  With the mode off centre
    the value at the mode is out of line with its neighbours. *)

Lemma logcdf_0_2_8_at_3 :
  logcdf (Fin 0) (Fin 2) (Fin 8) (Fin 3) = Fin (ln (23/48)).
Proof.
  xeval.
  replace ((8 + - (3)) * (8 + - (3)) / ((8 + - 0) * (8 + - (2))))
    with (25/48) by field.
  xeval. do 2 f_equal. field.
Qed.

(** C2: with parameters [(0, 2, 8)], a valid triple, logcdf decreases from
    [x = 2] to [x = 3]: it is [ln (1/2)] at 2 and [ln (23/48)] at 3. *)
Theorem logcdf_not_monotone :
  valid (Fin 0) (Fin 2) (Fin 8) /\
  xle (Fin 2) (Fin 3) = true /\
  logcdf (Fin 0) (Fin 2) (Fin 8) (Fin 2) = Fin (ln (1/2)) /\
  logcdf (Fin 0) (Fin 2) (Fin 8) (Fin 3) = Fin (ln (23/48)) /\
  xle (logcdf (Fin 0) (Fin 2) (Fin 8) (Fin 2))
      (logcdf (Fin 0) (Fin 2) (Fin 8) (Fin 3)) = false.
Proof.
  assert (Hm : logcdf (Fin 0) (Fin 2) (Fin 8) (Fin 2) = Fin (ln (1/2)))
    by (apply logcdf_at_mode; xeval; reflexivity).
  repeat split; try (xeval; reflexivity); try exact Hm;
    try exact logcdf_0_2_8_at_3.
  rewrite Hm, logcdf_0_2_8_at_3. simpl. apply Rleb_false.
  apply ln_increasing; lra.
Qed.

(** C3: with parameters [(0, 2, 8)] and [x = 3], strictly between the bounds,
    the CDF is [23/48], under the threshold one half, so inverseCDF takes the
    lower branch and returns [sqrt (23/3)], which is less than [2.8]. *)
Theorem cdfinv_cdf_not_identity :
  valid (Fin 0) (Fin 2) (Fin 8) /\
  xlt (Fin 0) (Fin 3) = true /\ xlt (Fin 3) (Fin 8) = true /\
  cdf (Fin 0) (Fin 2) (Fin 8) (Fin 3) = Fin (23/48) /\
  cdfinv (Fin 0) (Fin 2) (Fin 8) (cdf (Fin 0) (Fin 2) (Fin 8) (Fin 3))
    = Fin (sqrt (23/3)) /\
  sqrt (23/3) < 14/5.
Proof.
  assert (Hc : cdf (Fin 0) (Fin 2) (Fin 8) (Fin 3) = Fin (23/48)).
  { rewrite cdf_above_mode by lra. f_equal. field. }
  repeat split; try (xeval; reflexivity); try exact Hc.
  - rewrite Hc, cdfinv_lower by lra. f_equal.
    rewrite Rplus_0_l. f_equal. field.
  - replace (14/5) with (sqrt ((14/5) * (14/5))) by (apply sqrt_square; lra).
    apply sqrt_lt_1; lra.
Qed.

(** ** inverseCDF out of the range of probabilities *)



(** ** Broadcast comparisons *)

Lemma forallb_nth {A} (f : A -> bool) (l : list A) (d : A) :
  forallb f l = true <-> forall i, (i < List.length l)%nat -> f (nth i l d) = true.
Proof.
  rewrite forallb_forall. split.
  - intros H i Hi. apply H. now apply nth_In.
  - intros H x Hx. destruct (In_nth l x d Hx) as (i & Hi & <-). now apply H.
Qed.

Lemma jnp_all_map {A} (f : A -> bool) (l : list A) (d : A) :
  jnp_all (map f l) = true <->
  forall i, (i < List.length l)%nat -> f (nth i l d) = true.
Proof.
  unfold jnp_all.
  replace (forallb (fun b => b) (map f l)) with (forallb f l)
    by (induction l as [|x l IH]; simpl; [reflexivity | now rewrite IH]).
  apply forallb_nth.
Qed.

(** What [less_equal] computes, against the elements of the broadcast. *)
Lemma less_equal_all (a b : ArrayLike) :
  broadcastable a b ->
  exists c, less_equal a b = Ok c /\ (jnp_all c = true <-> all_le a b).
Proof.
  unfold broadcastable, less_equal, all_le, broadcast_size, item, size.
  set (va := values a). set (vb := values b). intros Hb.
  destruct (Nat.eqb_spec (List.length va) (List.length vb)) as [E | N].
  - eexists. split; [reflexivity|].
    rewrite (jnp_all_map _ _ (NaN, NaN)), length_combine, <- E, Nat.min_id.
    assert (Hi : forall i, (i < List.length va)%nat ->
              xle (fst (nth i (combine va vb) (NaN, NaN)))
                  (snd (nth i (combine va vb) (NaN, NaN))) =
              xle (nth i va NaN) (nth i vb NaN))
      by (intros i _; now rewrite combine_nth).
    destruct va as [|x [|x' va]], vb as [|y [|y' vb]]; try discriminate E;
      simpl Nat.eqb; cbv iota.
    + split; intros H i Hlt; inversion Hlt.
    + split; intros H i Hlt.
      * assert (i = 0%nat) by (simpl in Hlt; lia). subst i. exact (H 0%nat Hlt).
      * assert (i = 0%nat) by (simpl in Hlt; lia). subst i. exact (H 0%nat Hlt).
    + split; intros H i Hlt.
      * rewrite <- Hi by exact Hlt. now apply H.
      * rewrite Hi by exact Hlt. now apply H.
  - destruct Hb as [E | [E | E]]; [contradiction | |].
    + destruct va as [|x [|x' va]]; try discriminate E.
      eexists. split; [reflexivity|]. simpl Nat.eqb. cbv iota.
      rewrite (jnp_all_map _ _ NaN).
      destruct vb as [|y [|y' vb]]; [| exfalso; apply N; reflexivity |];
        split; intros H i Hlt; now apply H.
    + destruct vb as [|y [|y' vb]]; try discriminate E.
      destruct va as [|x [|x' va]]; [| exfalso; apply N; reflexivity |].
      * eexists. split; [reflexivity|]. simpl. split; [|reflexivity].
        intros _ i Hlt. inversion Hlt.
      * eexists. split; [reflexivity|]. simpl Nat.eqb. cbv iota.
        rewrite (jnp_all_map _ _ NaN). split; intros H i Hlt; now apply H.
Qed.


(** ** Construction *)

(** [check_params] passes when the invariant holds and raises the assertion
    error when it does not. *)
Lemma check_params_cases (self : Triangular) :
  broadcastable (_low self) (_high self) ->
  broadcastable (_low self) (_mode self) ->
  broadcastable (_mode self) (_high self) ->
  (ordered (_low self) (_mode self) (_high self) /\ check_params self = Ok tt) \/
  (~ ordered (_low self) (_mode self) (_high self) /\
   exists msg, check_params self = Raise (AssertionError msg)).
Proof.
  intros B1 B2 B3.
  destruct (less_equal_all _ _ B1) as (c1 & E1 & H1).
  destruct (less_equal_all _ _ B2) as (c2 & E2 & H2).
  destruct (less_equal_all _ _ B3) as (c3 & E3 & H3).
  unfold ordered, check_params, assert_. rewrite E1, E2, E3. cbn [bind].
  destruct (jnp_all c1); cbn [bind].
  2:{ right. split; [|eexists; reflexivity].
      intros (A & _). apply H1 in A. discriminate. }
  destruct (jnp_all c2); cbn [bind].
  2:{ right. split; [|eexists; reflexivity].
      intros (_ & A & _). apply H2 in A. discriminate. }
  destruct (jnp_all c3).
  2:{ right. split; [|eexists; reflexivity].
      intros (_ & _ & A). apply H3 in A. discriminate. }
  left. repeat split; [apply H1 | apply H2 | apply H3]; reflexivity.
Qed.

(** C4: when the three parameters broadcast pairwise, construction succeeds
    exactly when [low <= mode <= high] holds at every broadcast element, and
    otherwise it raises the assertion error and returns no object. *)
Theorem init_iff_ordered (low high mode : ArrayLike) (name : option string) :
  broadcastable low high -> broadcastable low mode -> broadcastable mode high ->
  (ordered low mode high <->
   __init__ low high mode name =
     Ok {| _low := low; _mode := mode; _high := high; _name := name |}) /\
  (~ ordered low mode high ->
   exists msg, __init__ low high mode name = Raise (AssertionError msg)).
Proof.
  intros B1 B2 B3. unfold __init__, ContinuousRV_init.
  destruct (check_params_cases
              {| _low := low; _mode := mode; _high := high; _name := None |}
              B1 B2 B3) as [[Ho E] | [Hn [msg E]]];
    cbn [_low _mode _high] in *; rewrite E; cbn [bind].
  - split; [tauto|]. intros N. contradiction.
  - split; [split; [contradiction | discriminate]|].
    intros _. now exists msg.
Qed.

(** On scalars the invariant is the validity of the triple of numbers. *)
Lemma all_le_scalar (a b : ArrayLike) (x y : xreal) :
  values a = [x] -> values b = [y] -> (all_le a b <-> xle x y = true).
Proof.
  intros Ha Hb. unfold all_le, broadcast_size, item, size. rewrite Ha, Hb.
  simpl. split; intros H; [apply (H 0%nat); lia | intros i _; exact H].
Qed.

Lemma xle_trans (a b c : xreal) :
  xle a b = true -> xle b c = true -> xle a c = true.
Proof.
  destruct a, b, c; simpl; try discriminate; try reflexivity.
  intros H1 H2. rhyp. apply Rleb_true. lra.
Qed.

Lemma ordered_scalar (low mode high : ArrayLike) (l m h : xreal) :
  values low = [l] -> values mode = [m] -> values high = [h] ->
  (ordered low mode high <-> valid l m h).
Proof.
  intros Hl Hm Hh. unfold ordered, valid.
  rewrite (all_le_scalar low high l h), (all_le_scalar low mode l m),
    (all_le_scalar mode high m h) by assumption.
  split; [tauto|]. intros [H1 H2]. repeat split; try assumption.
  now apply xle_trans with m.
Qed.

Lemma float_val_half : float_val 0.5 = Fin (1/2).
Proof.
  unfold float_val.
  change (Prim2SF 0.5) with (S754_finite false 4503599627370496 (-53)).
  cbv iota.
  replace (dyadic 4503599627370496 (-53)) with (1 # 2)%Q
    by (vm_compute; reflexivity).
  unfold Q2R. simpl. reflexivity.
Qed.

Lemma init_scalars (low high mode : ArrayLike) (l h m : xreal)
    (name : option string) :
  values low = [l] -> values high = [h] -> values mode = [m] ->
  valid l m h ->
  __init__ low high mode name =
    Ok {| _low := low; _mode := mode; _high := high; _name := name |}.
Proof.
  intros Hl Hh Hm Hv. unfold __init__, ContinuousRV_init.
  assert (B1 : broadcastable low high)
    by (left; unfold size; now rewrite Hl, Hh).
  assert (B2 : broadcastable low mode)
    by (left; unfold size; now rewrite Hl, Hm).
  assert (B3 : broadcastable mode high)
    by (left; unfold size; now rewrite Hm, Hh).
  destruct (check_params_cases
              {| _low := low; _mode := mode; _high := high; _name := None |}
              B1 B2 B3) as [[_ E] | [Hn _]]; cbn [_low _mode _high] in *.
  - now rewrite E.
  - exfalso. apply Hn. now apply (ordered_scalar low mode high l m h).
Qed.

Lemma init_default (name : option string) :
  __init__ (PyInt 0) (PyInt 1) (PyFloat 0.5) name =
    Ok {| _low := PyInt 0; _mode := PyFloat 0.5; _high := PyInt 1;
          _name := name |}.
Proof.
  assert (Hm : values (PyFloat 0.5) = [Fin (1/2)])
    by (cbn [values]; now rewrite float_val_half).
  apply (init_scalars (PyInt 0) (PyInt 1) (PyFloat 0.5)
           (Fin 0) (Fin 1) (Fin (1/2)) name eq_refl eq_refl Hm).
  split; xeval; reflexivity.
Qed.


(** ** describe *)

Lemma float_str_half : float_str 0.5 = "0.5"%string.
Proof. vm_compute. reflexivity. Qed.

(** The layouts of [repr]: a whole number keeps [.0], and the exponent
    takes over from [1e16] up and below [0.0001]. *)
Example float_str_layouts :
  float_str 1 = "1.0"%string /\
  float_str 0.25 = "0.25"%string /\
  float_str (-2.5) = "-2.5"%string /\
  float_str 1e22 = "1e+22"%string /\
  float_str 0.0001220703125 = "0.0001220703125"%string /\
  float_str 0.00006103515625 = "6.103515625e-05"%string.
Proof. vm_compute. repeat split. Qed.

Lemma append_assoc (a b c : string) :
  ((a ++ b) ++ c = a ++ (b ++ c))%string.
Proof. induction a as [|x a IH]; simpl; [reflexivity | now rewrite IH]. Qed.

Lemma append_length (a b : string) :
  String.length (a ++ b) = (String.length a + String.length b)%nat.
Proof. induction a as [|x a IH]; simpl; [reflexivity | now rewrite IH]. Qed.

(** C9: the distribution built from the defaults describes itself as
    [Triangular(low=0, mode=0.5, high=1)], with the name ["T"] as
    [Triangular(low=0, mode=0.5, high=1, name=T)], and the name clause is
    left out exactly when the object has no name. *)
Theorem repr_default (array_str : list float -> string) :
  (exists t, Triangular_call [] None = Ok t /\
             __repr__ array_str t = "Triangular(low=0, mode=0.5, high=1)"%string) /\
  (exists t, Triangular_call [] (Some "T"%string) = Ok t /\
             __repr__ array_str t =
               "Triangular(low=0, mode=0.5, high=1, name=T)"%string) /\
  (forall t : Triangular,
     let params :=
       ("Triangular(low=" ++ str array_str (_low t) ++ ", mode=" ++
        str array_str (_mode t) ++ ", high=" ++ str array_str (_high t))%string in
     (_name t = None <-> __repr__ array_str t = (params ++ ")")%string) /\
     (forall name, _name t = Some name ->
        __repr__ array_str t = (params ++ ", name=" ++ name ++ ")")%string)).
Proof.
  split; [|split].
  - eexists. split.
    + apply init_default.
    + unfold __repr__. cbn [_low _mode _high _name str].
      rewrite float_str_half. reflexivity.
  - eexists. split.
    + apply init_default.
    + unfold __repr__. cbn [_low _mode _high _name str].
      rewrite float_str_half. reflexivity.
  - intros t params. unfold __repr__. fold params. split.
    + destruct (_name t) as [name|]; split; try reflexivity; try discriminate.
      intros H. exfalso.
      apply (f_equal String.length) in H.
      rewrite !append_length in H. simpl in H. lia.
    + intros name ->. now rewrite !append_assoc.
Qed.

(** ** Instances *)

(** C1 at parameters [(0, 0.5, 1)] and [x = 0.3]. *)
Lemma logcdf_piecewise_witness :
  valid (Fin 0) (Fin (1/2)) (Fin 1) /\ Fin (3/10) <> NaN /\
  logCDF_spec (Fin 0) (Fin (1/2)) (Fin 1) (Fin (3/10)) =
    Some (logcdf (Fin 0) (Fin (1/2)) (Fin 1) (Fin (3/10))).
Proof.
  assert (Hv : valid (Fin 0) (Fin (1/2)) (Fin 1)) by (split; xeval; reflexivity).
  assert (Hx : Fin (3/10) <> NaN) by discriminate.
  exact (conj Hv (conj Hx (logcdf_piecewise _ _ _ _ Hv Hx))).
Defined.

(** C5 at parameters [(0, 0.5, 1)] and [x = 2], above the upper bound. *)
Lemma logpdf_piecewise_witness :
  valid (Fin 0) (Fin (1/2)) (Fin 1) /\ Fin 2 <> NaN /\
  logDensity_spec (Fin 0) (Fin (1/2)) (Fin 1) (Fin 2)
    (logpdf (Fin 0) (Fin (1/2)) (Fin 1) (Fin 2)) /\
  (forall v, logDensity_spec (Fin 0) (Fin (1/2)) (Fin 1) (Fin 2) v ->
             v = logpdf (Fin 0) (Fin (1/2)) (Fin 1) (Fin 2)) /\
  (xlt (Fin 2) (Fin 0) = true \/ xgt (Fin 2) (Fin 1) = true ->
   logpdf (Fin 0) (Fin (1/2)) (Fin 1) (Fin 2) = NInf).
Proof.
  assert (Hv : valid (Fin 0) (Fin (1/2)) (Fin 1)) by (split; xeval; reflexivity).
  assert (Hx : Fin 2 <> NaN) by discriminate.
  exact (conj Hv (conj Hx (logpdf_piecewise _ _ _ _ Hv Hx))).
Defined.

(** C8 at parameters [(0, 2, 8)], the mode a quarter of the way up. *)
Lemma cdfinv_threshold_half_witness :
  xlt (Fin 0) (Fin 2) = true /\ xlt (Fin 2) (Fin 8) = true /\
  cdf (Fin 0) (Fin 2) (Fin 8) (Fin 2) = Fin (1/2) /\
  forall p,
    cdfinv (Fin 0) (Fin 2) (Fin 8) p =
      if xlt p (Fin (1/2))
      then (Fin 0 + xsqrt (p * (Fin 2 - Fin 0) * (Fin 8 - Fin 0)))%X
      else (Fin 8 - xsqrt ((Fin 1 - p) * (Fin 8 - Fin 0) * (Fin 8 - Fin 2)))%X.
Proof.
  assert (H1 : xlt (Fin 0) (Fin 2) = true) by (xeval; reflexivity).
  assert (H2 : xlt (Fin 2) (Fin 8) = true) by (xeval; reflexivity).
  exact (conj H1 (conj H2 (cdfinv_threshold_half _ _ _ H1 H2))).
Defined.


(** C4 at the default parameters. *)
Lemma init_iff_ordered_witness :
  broadcastable (PyInt 0) (PyInt 1) /\
  broadcastable (PyInt 0) (PyFloat 0.5) /\
  broadcastable (PyFloat 0.5) (PyInt 1) /\
  (ordered (PyInt 0) (PyFloat 0.5) (PyInt 1) <->
   __init__ (PyInt 0) (PyInt 1) (PyFloat 0.5) None =
     Ok {| _low := PyInt 0; _mode := PyFloat 0.5; _high := PyInt 1;
           _name := None |}) /\
  (~ ordered (PyInt 0) (PyFloat 0.5) (PyInt 1) ->
   exists msg,
     __init__ (PyInt 0) (PyInt 1) (PyFloat 0.5) None =
       Raise (AssertionError msg)).
Proof.
  assert (B1 : broadcastable (PyInt 0) (PyInt 1)) by (left; reflexivity).
  assert (B2 : broadcastable (PyInt 0) (PyFloat 0.5)) by (left; reflexivity).
  assert (B3 : broadcastable (PyFloat 0.5) (PyInt 1)) by (left; reflexivity).
  exact (conj B1 (conj B2 (conj B3
           (init_iff_ordered (PyInt 0) (PyInt 1) (PyFloat 0.5) None B1 B2 B3)))).
Defined.

(** X1 at [low = 0], [high = 4] and [x = 1]. *)
Lemma cdfinv_cdf_symmetric_witness :
  0 < 1 < 4 /\
  cdfinv (Fin 0) (Fin ((0 + 4) / 2)) (Fin 4)
    (cdf (Fin 0) (Fin ((0 + 4) / 2)) (Fin 4) (Fin 1)) = Fin 1.
Proof.
  assert (H : 0 < 1 < 4) by lra.
  exact (conj H (cdfinv_cdf_symmetric 0 4 1 H)).
Defined.

(** * Further properties of the methods *)

(** ** logpdf and the density *)

Lemma xlog_pos (r : R) : 0 < r -> xlog (Fin r) = Fin (ln r).
Proof. intros H. unfold xlog. rcmp. reflexivity. Qed.

Lemma xlog_zero : xlog (Fin 0) = NInf.
Proof. unfold xlog. rcmp. reflexivity. Qed.

Lemma ln_div (a b : R) : 0 < a -> 0 < b -> ln (a / b) = ln a - ln b.
Proof.
  intros Ha Hb. unfold Rdiv. rewrite ln_mult, ln_Rinv; try lra.
  now apply Rinv_0_lt_compat.
Qed.

Lemma triangular_density_nonneg (low mode high x : R) :
  low <= mode <= high -> low < high -> 0 <= triangular_density low mode high x.
Proof.
  intros Hv Hw. unfold triangular_density.
  destruct (Rlt_dec x low); [lra|].
  destruct (Rlt_dec x mode).
  { apply Rmult_le_pos; [lra|]. apply Rlt_le, Rinv_0_lt_compat. nra. }
  destruct (Req_dec_T x mode).
  { apply Rlt_le, Rdiv_lt_0_compat; lra. }
  destruct (Rle_dec x high); [|lra].
  apply Rmult_le_pos; [lra|]. apply Rlt_le, Rinv_0_lt_compat. nra.
Qed.

Lemma logpdf_density_eq (low mode high x : R) :
  low <= mode <= high -> low < high ->
  logpdf (Fin low) (Fin mode) (Fin high) (Fin x) =
    xlog (Fin (triangular_density low mode high x)).
Proof.
  intros Hv Hw. unfold triangular_density.
  assert (V : valid (Fin low) (Fin mode) (Fin high))
    by (split; apply Rleb_true; lra).
  destruct (Rlt_dec x low) as [H1|H1].
  { rewrite logpdf_below by (trivial; now apply Rltb_true).
    now rewrite xlog_zero. }
  destruct (Rlt_dec x mode) as [H2|H2].
  { rewrite logpdf_rising
      by (trivial; (apply Rleb_true || apply Rltb_true); lra).
    cbn [xsub xneg xadd].
    rewrite (xlog_pos (high + - low)), (xlog_pos (mode + - low)) by lra.
    destruct (Rtotal_order low x) as [Hx | [<- | Hx]]; [| |lra].
    2:{ replace (low + - low) with 0 by lra.
      replace (2 * (low - low) / ((high - low) * (mode - low))) with 0
        by (unfold Rdiv; ring).
      rewrite xlog_zero. reflexivity. }
    rewrite (xlog_pos (x + - low)) by lra. cbn [xadd xsub xneg].
      rewrite xlog_pos by (apply Rdiv_lt_0_compat; nra).
      f_equal. rewrite ln_div, !ln_mult by nra.
      replace (x + - low) with (x - low) by lra.
      replace (high + - low) with (high - low) by lra.
      replace (mode + - low) with (mode - low) by lra. lra. }
  destruct (Req_dec_T x mode) as [H3|H3].
  { rewrite logpdf_mode by (trivial; now apply Reqb_true).
    cbn [xsub xneg xadd]. rewrite (xlog_pos (high + - low)) by lra.
    cbn [xadd xsub xneg]. rewrite xlog_pos by (apply Rdiv_lt_0_compat; lra).
    f_equal. rewrite ln_div by lra.
    replace (high + - low) with (high - low) by lra. lra. }
  destruct (Rle_dec x high) as [H4|H4].
  { rewrite logpdf_falling
      by (trivial; (apply Rleb_true || apply Rltb_true); lra).
    cbn [xsub xneg xadd].
    rewrite (xlog_pos (high + - low)), (xlog_pos (high + - mode)) by lra.
    destruct (Rtotal_order x high) as [Hx | [-> | Hx]]; [| |lra].
    2:{ replace (high + - high) with 0 by lra.
      replace (2 * (high - high) / ((high - low) * (high - mode))) with 0
        by (unfold Rdiv; ring).
      rewrite xlog_zero. reflexivity. }
    rewrite (xlog_pos (high + - x)) by lra. cbn [xadd xsub xneg].
      rewrite xlog_pos by (apply Rdiv_lt_0_compat; nra).
      f_equal. rewrite ln_div, !ln_mult by nra.
      replace (high + - x) with (high - x) by lra.
      replace (high + - low) with (high - low) by lra.
      replace (high + - mode) with (high - mode) by lra. lra. }
  rewrite logpdf_above by (apply Rltb_true; lra). now rewrite xlog_zero.
Qed.

(** X3: with [low <= mode <= high] and [low < high], logpdf is, at every real
    [x], the logarithm of the density of the triangular distribution, which
    is never negative; where the density is zero the logarithm is [-inf]. *)
Theorem logpdf_log_density (low mode high x : R) :
  low <= mode <= high -> low < high ->
  0 <= triangular_density low mode high x /\
  logpdf (Fin low) (Fin mode) (Fin high) (Fin x) =
    xlog (Fin (triangular_density low mode high x)).
Proof.
  intros Hv Hw. split.
  - now apply triangular_density_nonneg.
  - now apply logpdf_density_eq.
Qed.

Lemma xlog_mono (a b : R) :
  0 <= a <= b -> xle (xlog (Fin a)) (xlog (Fin b)) = true.
Proof.
  intros [Ha Hab].
  destruct (Rtotal_order 0 a) as [Hp | [<- | Hn]]; [| |lra].
  - rewrite !xlog_pos by lra. simpl. apply Rleb_true.
    destruct (Rtotal_order a b) as [Hlt | [-> | Hgt]]; [| lra | lra].
    apply Rlt_le, ln_increasing; lra.
  - rewrite xlog_zero.
    destruct (Rtotal_order 0 b) as [Hp | [<- | Hn]]; [| |lra].
    + now rewrite xlog_pos.
    + now rewrite xlog_zero.
Qed.

(** The density rises up to the mode and falls after it. *)
Lemma triangular_density_rising (low mode high x1 x2 : R) :
  low <= mode <= high -> low < high -> x1 <= x2 <= mode ->
  triangular_density low mode high x1 <= triangular_density low mode high x2.
Proof.
  intros Hv Hw Hx.
  pose proof (triangular_density_nonneg low mode high x2 Hv Hw) as N2.
  unfold triangular_density in *.
  destruct (Rlt_dec x1 low); [exact N2|].
  destruct (Rlt_dec x2 low); [lra|].
  destruct (Rlt_dec x1 mode).
  - destruct (Rlt_dec x2 mode).
    + unfold Rdiv. apply Rmult_le_compat_r; [|lra].
      apply Rlt_le, Rinv_0_lt_compat. nra.
    + destruct (Req_dec_T x2 mode); [|lra].
      apply (Rmult_le_reg_r ((high - low) * (mode - low))); [nra|].
      field_simplify; nra.
  - destruct (Rlt_dec x2 mode); [lra|].
    destruct (Req_dec_T x1 mode), (Req_dec_T x2 mode); lra.
Qed.

Lemma triangular_density_falling (low mode high x1 x2 : R) :
  low <= mode <= high -> low < high -> mode <= x1 <= x2 ->
  triangular_density low mode high x2 <= triangular_density low mode high x1.
Proof.
  intros Hv Hw Hx.
  pose proof (triangular_density_nonneg low mode high x1 Hv Hw) as N1.
  unfold triangular_density in *.
  destruct (Rlt_dec x1 low); [lra|].
  destruct (Rlt_dec x2 low); [lra|].
  destruct (Rlt_dec x1 mode); [lra|].
  destruct (Rlt_dec x2 mode); [lra|].
  destruct (Req_dec_T x1 mode) as [E1|E1], (Req_dec_T x2 mode) as [E2|E2];
    try lra.
  - destruct (Rle_dec x2 high); [|lra].
    apply (Rmult_le_reg_r ((high - low) * (high - mode))); [nra|].
    field_simplify; nra.
  - destruct (Rle_dec x1 high), (Rle_dec x2 high); try lra.
    unfold Rdiv. apply Rmult_le_compat_r; [|lra].
    apply Rlt_le, Rinv_0_lt_compat. nra.
Qed.

(** X4: logpdf is unimodal: it does not decrease up to the mode and does not
    increase after it, so the mode has the largest density. *)
Theorem logpdf_unimodal (low mode high : R) :
  low <= mode <= high -> low < high ->
  (forall x1 x2, x1 <= x2 <= mode ->
     xle (logpdf (Fin low) (Fin mode) (Fin high) (Fin x1))
         (logpdf (Fin low) (Fin mode) (Fin high) (Fin x2)) = true) /\
  (forall x1 x2, mode <= x1 <= x2 ->
     xle (logpdf (Fin low) (Fin mode) (Fin high) (Fin x2))
         (logpdf (Fin low) (Fin mode) (Fin high) (Fin x1)) = true) /\
  (forall x,
     xle (logpdf (Fin low) (Fin mode) (Fin high) (Fin x))
         (logpdf (Fin low) (Fin mode) (Fin high) (Fin mode)) = true).
Proof.
  intros Hv Hw.
  assert (R1 : forall x1 x2, x1 <= x2 <= mode ->
     xle (logpdf (Fin low) (Fin mode) (Fin high) (Fin x1))
         (logpdf (Fin low) (Fin mode) (Fin high) (Fin x2)) = true).
  { intros x1 x2 Hx. rewrite !logpdf_density_eq by assumption.
    apply xlog_mono. split.
    - now apply triangular_density_nonneg.
    - now apply triangular_density_rising. }
  assert (R2 : forall x1 x2, mode <= x1 <= x2 ->
     xle (logpdf (Fin low) (Fin mode) (Fin high) (Fin x2))
         (logpdf (Fin low) (Fin mode) (Fin high) (Fin x1)) = true).
  { intros x1 x2 Hx. rewrite !logpdf_density_eq by assumption.
    apply xlog_mono. split.
    - now apply triangular_density_nonneg.
    - now apply triangular_density_falling. }
  split; [exact R1 | split; [exact R2|]].
  intros x. destruct (Rle_dec x mode).
  - apply R1. lra.
  - apply R2. lra.
Qed.

Lemma cdf_value_bounds (low mode high x : R) :
  low <= mode <= high -> 0 <= cdf_value low mode high x <= 1.
Proof.
  intros Hv. unfold cdf_value.
  destruct (Rlt_dec x low); [lra|].
  destruct (Rle_dec high x); [lra|].
  destruct (Rlt_dec x mode).
  { assert (D : 0 < (high - low) * (mode - low)) by nra.
    split.
    - apply Rmult_le_pos; [nra|]. now apply Rlt_le, Rinv_0_lt_compat.
    - apply (Rmult_le_reg_r ((high - low) * (mode - low))); [exact D|].
      unfold Rdiv. rewrite Rmult_assoc, Rinv_l by lra. nra. }
  destruct (Req_dec_T x mode); [lra|].
  assert (D : 0 < (high - low) * (high - mode)) by nra.
  assert (Q : 0 <= (high - x) * (high - x) / ((high - low) * (high - mode))
              <= 1).
  { split.
    - apply Rmult_le_pos; [nra|]. now apply Rlt_le, Rinv_0_lt_compat.
    - apply (Rmult_le_reg_r ((high - low) * (high - mode))); [exact D|].
      unfold Rdiv. rewrite Rmult_assoc, Rinv_l by lra. nra. }
  lra.
Qed.

Lemma logcdf_value_eq (low mode high x : R) :
  low <= mode <= high ->
  logcdf (Fin low) (Fin mode) (Fin high) (Fin x) =
    xlog (Fin (cdf_value low mode high x)).
Proof.
  intros Hv. unfold cdf_value.
  destruct (Rlt_dec x low) as [H1|H1].
  { xeval. reflexivity. }
  destruct (Rle_dec high x) as [H2|H2].
  { xeval. reflexivity. }
  destruct (Rlt_dec x mode) as [H3|H3].
  { unfold logcdf, inf, xge. repeat (cbn [xlt xle xeq where_ andb]; rcmp).
    cbn [xsub xneg xadd].
    rewrite (xlog_pos (high + - low)), (xlog_pos (mode + - low)) by lra.
    destruct (Rtotal_order low x) as [Hx | [<- | Hx]]; [| |lra].
    2:{ replace (low + - low) with 0 by lra. rewrite xlog_zero.
        replace ((low - low) * (low - low) / ((high - low) * (mode - low)))
          with 0 by (unfold Rdiv; ring).
        rewrite xlog_zero. cbn [xmul]. unfold scale_inf. rcmp.
        reflexivity. }
    rewrite (xlog_pos (x + - low)) by lra. cbn [xmul xadd xsub xneg].
    rewrite xlog_pos by (apply Rdiv_lt_0_compat; nra).
    f_equal. rewrite ln_div, !ln_mult by nra.
    replace (x + - low) with (x - low) by lra.
    replace (high + - low) with (high - low) by lra.
    replace (mode + - low) with (mode - low) by lra. lra. }
  destruct (Req_dec_T x mode) as [H4|H4].
  { subst x. rewrite logcdf_at_mode
      by ((apply Rleb_true || apply Rltb_true); lra).
    now rewrite xlog_pos by lra. }
  unfold logcdf, inf, xge. repeat (cbn [xlt xle xeq where_ andb]; rcmp).
  cbn [xsub xneg xadd xmul xsqr xdiv].
  replace (Reqb ((high + - low) * (high + - mode)) 0) with false
    by (symmetry; apply Reqb_false; nra).
  cbn [xadd xneg]. do 2 f_equal.
Qed.

Lemma cdf_value_eq (low mode high x : R) :
  low <= mode <= high ->
  cdf (Fin low) (Fin mode) (Fin high) (Fin x) = Fin (cdf_value low mode high x).
Proof.
  intros Hv. pose proof (cdf_value_bounds low mode high x Hv) as B.
  unfold cdf. rewrite logcdf_value_eq by assumption.
  destruct (Rtotal_order 0 (cdf_value low mode high x)) as [Hp | [<- | Hn]];
    [| |lra].
  - rewrite xlog_pos by lra. simpl. now rewrite exp_ln.
  - now rewrite xlog_zero.
Qed.

(** X5: with [low <= mode <= high], logcdf is at every real [x] the logarithm
    of a number between 0 and 1, the closed form [cdf_value], so it is never
    positive, and the CDF is that number. *)
Theorem cdf_in_unit_interval (low mode high x : R) :
  low <= mode <= high ->
  logcdf (Fin low) (Fin mode) (Fin high) (Fin x) =
    xlog (Fin (cdf_value low mode high x)) /\
  cdf (Fin low) (Fin mode) (Fin high) (Fin x) =
    Fin (cdf_value low mode high x) /\
  0 <= cdf_value low mode high x <= 1 /\
  xle (logcdf (Fin low) (Fin mode) (Fin high) (Fin x)) (Fin 0) = true.
Proof.
  intros Hv. pose proof (cdf_value_bounds low mode high x Hv) as B.
  split; [now apply logcdf_value_eq|].
  split; [now apply cdf_value_eq|].
  split; [exact B|].
  rewrite logcdf_value_eq by assumption.
  replace (Fin 0) with (xlog (Fin 1)) by apply xlog_one.
  now apply xlog_mono.
Qed.

Lemma xlog_mono_inv (a b : R) :
  0 < a -> 0 < b -> xle (xlog (Fin a)) (xlog (Fin b)) = true -> a <= b.
Proof.
  intros Ha Hb. rewrite !xlog_pos by assumption. simpl. intros H.
  apply Rleb_true in H.
  destruct (Rle_dec a b) as [|N]; [assumption|].
  exfalso. assert (ln b < ln a) by (apply ln_increasing; lra). lra.
Qed.

Lemma cdf_value_mono_below (low mode high x1 x2 : R) :
  low <= mode <= high -> x1 <= x2 -> x2 < mode ->
  cdf_value low mode high x1 <= cdf_value low mode high x2.
Proof.
  intros Hv H12 H2.
  pose proof (cdf_value_bounds low mode high x2 Hv) as B2.
  unfold cdf_value in *.
  destruct (Rlt_dec x1 low); [lra|].
  destruct (Rlt_dec x2 low); [lra|].
  destruct (Rle_dec high x1); [lra|].
  destruct (Rle_dec high x2); [lra|].
  destruct (Rlt_dec x1 mode); [|lra].
  destruct (Rlt_dec x2 mode); [|lra].
  unfold Rdiv. apply Rmult_le_compat_r; [|nra].
  apply Rlt_le, Rinv_0_lt_compat. nra.
Qed.

Lemma cdf_value_mono_above (low mode high x1 x2 : R) :
  low <= mode <= high -> mode < x1 -> x1 <= x2 ->
  cdf_value low mode high x1 <= cdf_value low mode high x2.
Proof.
  intros Hv H1 H12.
  pose proof (cdf_value_bounds low mode high x1 Hv) as B1.
  unfold cdf_value in *.
  destruct (Rlt_dec x1 low); [lra|].
  destruct (Rlt_dec x2 low); [lra|].
  destruct (Rle_dec high x1), (Rle_dec high x2); try lra.
  destruct (Rlt_dec x1 mode); [lra|].
  destruct (Rlt_dec x2 mode); [lra|].
  destruct (Req_dec_T x1 mode); [lra|].
  destruct (Req_dec_T x2 mode); [lra|].
  apply Rplus_le_compat_l, Ropp_le_contravar.
  unfold Rdiv. apply Rmult_le_compat_r; [|nra].
  apply Rlt_le, Rinv_0_lt_compat. nra.
Qed.

Lemma cdf_value_at_mode (low mode high : R) :
  low <= mode -> mode < high -> cdf_value low mode high mode = 1 / 2.
Proof.
  intros Hl Hh. unfold cdf_value.
  destruct (Rlt_dec mode low); [lra|].
  destruct (Rle_dec high mode); [lra|].
  destruct (Rlt_dec mode mode); [lra|].
  destruct (Req_dec_T mode mode); [reflexivity | congruence].
Qed.

Lemma cdf_value_below (low mode high x : R) :
  low <= x -> x < mode -> mode <= high ->
  cdf_value low mode high x =
    (x - low) * (x - low) / ((high - low) * (mode - low)).
Proof.
  intros H1 H2 H3. unfold cdf_value.
  destruct (Rlt_dec x low); [lra|].
  destruct (Rle_dec high x); [lra|].
  destruct (Rlt_dec x mode); [reflexivity | lra].
Qed.

Lemma cdf_value_above (low mode high x : R) :
  low <= mode -> mode < x -> x < high ->
  cdf_value low mode high x =
    1 - (high - x) * (high - x) / ((high - low) * (high - mode)).
Proof.
  intros H1 H2 H3. unfold cdf_value.
  destruct (Rlt_dec x low); [lra|].
  destruct (Rle_dec high x); [lra|].
  destruct (Rlt_dec x mode); [lra|].
  destruct (Req_dec_T x mode); [lra | reflexivity].
Qed.

Lemma div_le_half (n d : R) : 0 < d -> (n / d <= 1 / 2 <-> 2 * n <= d).
Proof.
  intros Hd. split; intros H.
  - apply (Rmult_le_compat_r d) in H; [|lra].
    unfold Rdiv in H. rewrite Rmult_assoc, Rinv_l in H by lra. lra.
  - apply (Rmult_le_reg_r d); [exact Hd|].
    unfold Rdiv. rewrite Rmult_assoc, Rinv_l by lra. lra.
Qed.

(** X6: with [low < mode < high], logcdf is non-decreasing over the whole
    line exactly when the mode is half-way between the bounds. *)
Theorem logcdf_monotone_iff_centred (low mode high : R) :
  low < mode < high ->
  ((forall x1 x2, x1 <= x2 ->
      xle (logcdf (Fin low) (Fin mode) (Fin high) (Fin x1))
          (logcdf (Fin low) (Fin mode) (Fin high) (Fin x2)) = true) <->
   mode - low = high - mode).
Proof.
  intros Hs. assert (Hv : low <= mode <= high) by lra. split.
  - intros M.
    destruct (Rtotal_order (mode - low) (high - mode)) as [Hlt | [Heq | Hgt]];
      [exfalso | exact Heq | exfalso].
    + (* the mode is low: just above it the CDF is under one half *)
      set (t := ((high - mode) + (high - low) / 2) / 2).
      assert (Ht : 0 < t < high - mode) by (unfold t; lra).
      specialize (M mode (high - t) ltac:(lra)).
      rewrite !logcdf_value_eq in M by assumption.
      rewrite cdf_value_at_mode, cdf_value_above in M by lra.
      assert (Q : 1 / 2 < (high - (high - t)) * (high - (high - t)) /
                          ((high - low) * (high - mode)) < 1).
      { replace (high - (high - t)) with t by lra. split.
        - apply (Rmult_lt_reg_r ((high - low) * (high - mode))); [nra|].
          unfold Rdiv at 2. rewrite Rmult_assoc, Rinv_l by nra.
          unfold t. nra.
        - apply (Rmult_lt_reg_r ((high - low) * (high - mode))); [nra|].
          unfold Rdiv. rewrite Rmult_assoc, Rinv_l by nra. nra. }
      apply xlog_mono_inv in M; lra.
    + (* the mode is high: just below it the CDF is over one half *)
      set (t := ((mode - low) + (high - low) / 2) / 2).
      assert (Ht : 0 < t < mode - low) by (unfold t; lra).
      specialize (M (low + t) mode ltac:(lra)).
      rewrite !logcdf_value_eq in M by assumption.
      rewrite cdf_value_at_mode, cdf_value_below in M by lra.
      assert (Q : 1 / 2 < (low + t - low) * (low + t - low) /
                          ((high - low) * (mode - low))).
      { replace (low + t - low) with t by lra.
        apply (Rmult_lt_reg_r ((high - low) * (mode - low))); [nra|].
        unfold Rdiv at 2. rewrite Rmult_assoc, Rinv_l by nra.
        unfold t. nra. }
      apply xlog_mono_inv in M; lra.
  - intros Hc x1 x2 H12.
    rewrite !logcdf_value_eq by assumption.
    apply xlog_mono. split; [now apply cdf_value_bounds|].
    destruct (Rlt_dec x2 mode) as [H2|H2];
      [now apply cdf_value_mono_below|].
    destruct (Rlt_dec mode x1) as [H1|H1];
      [now apply cdf_value_mono_above|].
    (* x1 <= mode <= x2 *)
    apply Rle_trans with (1 / 2).
    + destruct (Req_dec_T x1 mode) as [->|N1].
      * rewrite cdf_value_at_mode by lra. lra.
      * destruct (Rlt_dec x1 low) as [L|L].
        { unfold cdf_value. destruct (Rlt_dec x1 low); lra. }
        rewrite cdf_value_below by lra.
        apply div_le_half; nra.
    + destruct (Req_dec_T x2 mode) as [->|N2].
      * rewrite cdf_value_at_mode by lra. lra.
      * destruct (Rle_dec high x2) as [L|L].
        { unfold cdf_value. destruct (Rlt_dec x2 low); [lra|].
          destruct (Rle_dec high x2); lra. }
        rewrite cdf_value_above by lra.
        assert ((high - x2) * (high - x2) / ((high - low) * (high - mode))
                <= 1 / 2) by (apply div_le_half; nra).
        lra.
Qed.

(** ** cdfinv on probabilities *)

Lemma cdf_value_mode_cases (low mode high : R) :
  low <= mode <= high ->
  (mode < high /\ cdf_value low mode high mode = 1 / 2) \/
  (mode = high /\ cdf_value low mode high mode = 1).
Proof.
  intros Hv. destruct (Rtotal_order mode high) as [H | [H | H]]; [| |lra].
  - left. split; [exact H|]. apply cdf_value_at_mode; lra.
  - right. split; [exact H|]. unfold cdf_value.
    destruct (Rlt_dec mode low); [lra|].
    destruct (Rle_dec high mode); lra.
Qed.

Lemma cdfinv_quantile_value (low mode high p : R) :
  low <= mode <= high -> 0 <= p <= 1 ->
  cdfinv (Fin low) (Fin mode) (Fin high) (Fin p) =
    Fin (quantile_value low mode high p).
Proof.
  intros Hv Hp. unfold cdfinv, quantile_value.
  rewrite cdf_value_eq by assumption.
  assert (A : 0 <= p * (mode + - low) * (high + - low))
    by (apply Rmult_le_pos; [apply Rmult_le_pos|]; lra).
  assert (B : 0 <= (1 + - p) * (high + - low) * (high + - mode))
    by (apply Rmult_le_pos; [apply Rmult_le_pos|]; lra).
  cbn [xlt where_ xsub xneg xadd xmul].
  destruct (Rlt_dec p (cdf_value low mode high mode)) as [H|H].
  - replace (Rltb p (cdf_value low mode high mode)) with true
      by (symmetry; now apply Rltb_true).
    unfold xsqrt. rcmp. reflexivity.
  - replace (Rltb p (cdf_value low mode high mode)) with false
      by (symmetry; apply Rltb_false; lra).
    unfold xsqrt. rcmp. reflexivity.
Qed.

Lemma sqrt_le_of_sqr (a w : R) : 0 <= a -> 0 <= w -> a <= w * w -> sqrt a <= w.
Proof.
  intros Ha Hw H. rewrite <- (sqrt_square w) by assumption.
  apply sqrt_le_1; [assumption | nra | assumption].
Qed.

Lemma sum_sqrt_le (x y w : R) :
  0 <= x -> 0 <= y -> 0 <= w -> 2 * (x + y) <= w * w ->
  sqrt x + sqrt y <= w.
Proof.
  intros Hx Hy Hw H.
  pose proof (sqrt_pos x) as Sx. pose proof (sqrt_pos y) as Sy.
  pose proof (sqrt_sqrt x Hx) as Ex. pose proof (sqrt_sqrt y Hy) as Ey.
  set (s := sqrt x) in *. set (t := sqrt y) in *.
  destruct (Rle_dec (s + t) w) as [|N]; [assumption|].
  exfalso.
  assert (G : w < s + t) by lra.
  assert (G2 : w * w < (s + t) * (s + t))
    by (apply Rmult_le_0_lt_compat; lra).
  pose proof (Rle_0_sqr (s - t)) as Q. unfold Rsqr in Q.
  nra.
Qed.

(** X7: cdfinv does not decrease over the probabilities, wherever the mode
    lies. *)
Theorem cdfinv_monotone (low mode high p1 p2 : R) :
  low <= mode <= high -> 0 <= p1 -> p1 <= p2 -> p2 <= 1 ->
  xle (cdfinv (Fin low) (Fin mode) (Fin high) (Fin p1))
      (cdfinv (Fin low) (Fin mode) (Fin high) (Fin p2)) = true.
Proof.
  intros Hv H0 H12 H1. rewrite !cdfinv_quantile_value by lra.
  simpl. apply Rleb_true. unfold quantile_value.
  assert (A1 : 0 <= p1 * (mode - low) * (high - low))
    by (apply Rmult_le_pos; [apply Rmult_le_pos|]; lra).
  assert (B2 : 0 <= (1 - p2) * (high - low) * (high - mode))
    by (apply Rmult_le_pos; [apply Rmult_le_pos|]; lra).
  destruct (Rlt_dec p1 (cdf_value low mode high mode)) as [L1|L1],
           (Rlt_dec p2 (cdf_value low mode high mode)) as [L2|L2].
  - apply Rplus_le_compat_l, sqrt_le_1; try assumption.
    + apply Rmult_le_pos; [apply Rmult_le_pos|]; lra.
    + apply Rmult_le_compat_r; [lra|]. apply Rmult_le_compat_r; lra.
  - assert (sqrt (p1 * (mode - low) * (high - low)) +
            sqrt ((1 - p2) * (high - low) * (high - mode)) <= high - low);
      [|lra].
    destruct (cdf_value_mode_cases low mode high Hv) as [[Hm E] | [Hm E]];
      rewrite E in *.
    + apply sum_sqrt_le; try assumption; [lra|].
      assert (p1 * (mode - low) <= (mode - low) / 2) by nra.
      assert ((1 - p2) * (high - mode) <= (high - mode) / 2) by nra.
      nra.
    + subst mode.
      replace ((1 - p2) * (high - low) * (high - high)) with 0 by ring.
      rewrite sqrt_0, Rplus_0_r.
      apply sqrt_le_of_sqr; [exact A1 | lra |].
      assert (p1 * (high - low) <= high - low) by nra.
      apply Rmult_le_compat_r; lra.
  - lra.
  - apply Rplus_le_compat_l, Ropp_le_contravar, sqrt_le_1; try assumption.
    + apply Rmult_le_pos; [apply Rmult_le_pos|]; lra.
    + apply Rmult_le_compat_r; [lra|]. apply Rmult_le_compat_r; lra.
Qed.

Lemma sqrt_lt_of_sqr (a w : R) : 0 <= a -> 0 < w -> a < w * w -> sqrt a < w.
Proof.
  intros Ha Hw H. rewrite <- (sqrt_square w) by lra.
  apply sqrt_lt_1; [assumption | nra | assumption].
Qed.

(** The CDF undoes cdfinv at the probabilities that lie on the same side of
    one half, the threshold of the code, as of [(mode - low) / (high - low)],
    the probability below the mode. *)
Lemma cdf_cdfinv_side (low mode high p : R) :
  low < mode < high -> 0 <= p <= 1 ->
  (p < 1 / 2 /\ p * (high - low) < mode - low) \/
  (1 / 2 <= p /\ mode - low < p * (high - low)) ->
  cdf (Fin low) (Fin mode) (Fin high)
    (cdfinv (Fin low) (Fin mode) (Fin high) (Fin p)) = Fin p.
Proof.
  intros Hs Hp Hside. assert (Hv : low <= mode <= high) by lra.
  rewrite cdfinv_quantile_value by assumption.
  rewrite cdf_value_eq by assumption.
  f_equal. unfold quantile_value. rewrite cdf_value_at_mode by lra.
  destruct Hside as [[H1 H2] | [H1 H2]].
  - destruct (Rlt_dec p (1 / 2)) as [L|L]; [|lra].
    set (q := p * (mode - low) * (high - low)).
    assert (A : 0 <= q)
      by (apply Rmult_le_pos; [apply Rmult_le_pos|]; lra).
    assert (S : sqrt q < mode - low).
    { apply sqrt_lt_of_sqr; [exact A | lra |]. unfold q. nra. }
    pose proof (sqrt_pos q) as P.
    rewrite cdf_value_below by lra.
    replace (low + sqrt q - low) with (sqrt q) by lra.
    rewrite sqrt_sqrt by exact A. unfold q. field. lra.
  - destruct (Rlt_dec p (1 / 2)) as [L|L]; [lra|].
    set (q := (1 - p) * (high - low) * (high - mode)).
    assert (A : 0 <= q)
      by (apply Rmult_le_pos; [apply Rmult_le_pos|]; lra).
    assert (S : sqrt q < high - mode).
    { apply sqrt_lt_of_sqr; [exact A | lra |]. unfold q. nra. }
    pose proof (sqrt_pos q) as P.
    destruct (Req_dec_T p 1) as [->|N].
    + replace q with 0 by (unfold q; ring). rewrite sqrt_0.
      unfold cdf_value.
      destruct (Rlt_dec (high - 0) low); [lra|].
      destruct (Rle_dec high (high - 0)); lra.
    + assert (0 < q).
      { unfold q. apply Rmult_lt_0_compat; [apply Rmult_lt_0_compat|]; lra. }
      assert (0 < sqrt q) by now apply sqrt_lt_R0.
      rewrite cdf_value_above by lra.
      replace (high - (high - sqrt q)) with (sqrt q) by lra.
      rewrite sqrt_sqrt by exact A. unfold q. field. lra.
Qed.

Lemma one_minus_div_eq (n d v : R) : d <> 0 -> 1 - n / d = v -> n = (1 - v) * d.
Proof. intros Hd <-. field. exact Hd. Qed.

Lemma div_eq (n d v : R) : d <> 0 -> n / d = v -> n = v * d.
Proof. intros Hd <-. field. exact Hd. Qed.

Lemma sqrt_ge_of_sqr (a w : R) : 0 <= w -> w * w <= a -> w <= sqrt a.
Proof.
  intros Hw H. rewrite <- (sqrt_square w) at 1 by assumption.
  apply sqrt_le_1; [nra | nra | assumption].
Qed.

Lemma sqr_zero (z : R) : z * z = 0 -> z = 0.
Proof. intros H. apply Rmult_integral in H. tauto. Qed.

(** X8: with [low < mode < high] and a probability [p] from 0 to 1, the CDF
    undoes cdfinv at [p] exactly when [p] lies on the same side of one half,
    the threshold of the code, as of [(mode - low) / (high - low)], or [p] is
    one half and the mode is half-way between the bounds. *)
Theorem cdf_cdfinv_iff (low mode high p : R) :
  low < mode < high -> 0 <= p <= 1 ->
  (cdf (Fin low) (Fin mode) (Fin high)
     (cdfinv (Fin low) (Fin mode) (Fin high) (Fin p)) = Fin p <->
   (p < 1 / 2 /\ p * (high - low) < mode - low) \/
   (1 / 2 <= p /\ mode - low < p * (high - low)) \/
   (p = 1 / 2 /\ mode - low = high - mode)).
Proof.
  intros Hs Hp. assert (Hv : low <= mode <= high) by lra. split.
  - intros E. rewrite cdfinv_quantile_value, cdf_value_eq in E by assumption.
    injection E as E. unfold quantile_value in E.
    rewrite cdf_value_at_mode in E by lra.
    destruct (Rlt_dec p (1 / 2)) as [L|L].
    + destruct (Rlt_dec (p * (high - low)) (mode - low)) as [S|S];
        [left; lra | exfalso].
      set (q := p * (mode - low) * (high - low)) in *.
      assert (A : 0 <= q)
        by (apply Rmult_le_pos; [apply Rmult_le_pos|]; lra).
      pose proof (sqrt_sqrt q A) as Es.
      assert (G : mode - low <= sqrt q)
        by (apply sqrt_ge_of_sqr; [lra | unfold q; nra]).
      assert (U : sqrt q < high - low).
      { apply sqrt_lt_of_sqr; [exact A | lra |]. unfold q.
        assert (p * (mode - low) < high - low) by nra. nra. }
      set (s := sqrt q) in *.
      destruct (Req_dec_T s (mode - low)) as [Em|Nm].
      * replace (low + s) with mode in E by lra.
        rewrite cdf_value_at_mode in E by lra. lra.
      * rewrite cdf_value_above in E by lra.
        apply one_minus_div_eq in E; [|nra].
        assert (T : (high - low) * (2 * s) =
                    (high - low) * ((mode - low) + p * (high - low)))
          by (unfold q in Es; nra).
        apply Rmult_eq_reg_l in T; [|lra].
        assert (Z : (mode - low - p * (high - low)) *
                    (mode - low - p * (high - low)) = 0)
          by (unfold q in Es; nra).
        apply sqr_zero in Z. nra.
    + destruct (Rlt_dec (mode - low) (p * (high - low))) as [S|S];
        [right; left; lra|].
      destruct (Req_dec_T p (1 / 2)) as [Eh|Nh].
      { destruct (Req_dec_T (mode - low) (high - mode)) as [Ec|Nc];
          [right; right; now split | exfalso].
        subst p.
        set (q := (1 - 1 / 2) * (high - low) * (high - mode)) in *.
        assert (A : 0 <= q) by (unfold q; nra).
        pose proof (sqrt_sqrt q A) as Es.
        assert (G : high - mode <= sqrt q)
          by (apply sqrt_ge_of_sqr; [lra | unfold q; nra]).
        assert (G' : high - mode < sqrt q).
        { destruct (Req_dec_T (sqrt q) (high - mode)) as [X|X]; [|lra].
          exfalso. rewrite X in Es. unfold q in Es. nra. }
        assert (U : sqrt q < high - low).
        { apply sqrt_lt_of_sqr; [exact A | lra |]. unfold q. nra. }
        set (s := sqrt q) in *.
        rewrite cdf_value_below in E by lra.
        apply div_eq in E; [|nra].
        assert (T : (high - low) * (2 * s) =
                    (high - low) * ((high - mode) + (1 - 1 / 2) * (high - low)))
          by (unfold q in Es; nra).
        apply Rmult_eq_reg_l in T; [|lra].
        assert (Z : (high - mode - (1 - 1 / 2) * (high - low)) *
                    (high - mode - (1 - 1 / 2) * (high - low)) = 0)
          by (unfold q in Es; nra).
        apply sqr_zero in Z. lra. }
      exfalso.
      set (q := (1 - p) * (high - low) * (high - mode)) in *.
      assert (A : 0 <= q)
        by (apply Rmult_le_pos; [apply Rmult_le_pos|]; lra).
      pose proof (sqrt_sqrt q A) as Es.
      assert (G : high - mode <= sqrt q)
        by (apply sqrt_ge_of_sqr; [lra | unfold q; nra]).
      assert (U : sqrt q < high - low).
      { apply sqrt_lt_of_sqr; [exact A | lra |]. unfold q.
        assert ((1 - p) * (high - mode) < high - low) by nra. nra. }
      set (s := sqrt q) in *.
      destruct (Req_dec_T s (high - mode)) as [Em|Nm].
      * replace (high - s) with mode in E by lra.
        rewrite cdf_value_at_mode in E by lra. lra.
      * rewrite cdf_value_below in E by lra.
        apply div_eq in E; [|nra].
        assert (T : (high - low) * (2 * s) =
                    (high - low) * ((high - mode) + (1 - p) * (high - low)))
          by (unfold q in Es; nra).
        apply Rmult_eq_reg_l in T; [|lra].
        assert (Z : (high - mode - (1 - p) * (high - low)) *
                    (high - mode - (1 - p) * (high - low)) = 0)
          by (unfold q in Es; nra).
        apply sqr_zero in Z. nra.
  - intros [H | [H | [-> Hc]]].
    + apply cdf_cdfinv_side; try assumption. now left.
    + apply cdf_cdfinv_side; try assumption. now right.
    + rewrite cdfinv_upper by lra.
      replace (high - sqrt ((1 - 1 / 2) * (high - low) * (high - mode)))
        with mode.
      * apply cdf_at_mode; simpl; (apply Rleb_true || apply Rltb_true); lra.
      * replace ((1 - 1 / 2) * (high - low) * (high - mode))
          with ((high - mode) * (high - mode)) by nra.
        rewrite sqrt_square by lra. lra.
Qed.

Lemma cdfinv_cdf_value (low mode high x : R) :
  low <= mode <= high ->
  cdfinv (Fin low) (Fin mode) (Fin high)
    (cdf (Fin low) (Fin mode) (Fin high) (Fin x)) =
  Fin (quantile_value low mode high (cdf_value low mode high x)).
Proof.
  intros Hv. rewrite cdf_value_eq by assumption.
  apply cdfinv_quantile_value; [assumption | now apply cdf_value_bounds].
Qed.

Lemma div_lt_half (n d : R) : 0 < d -> (n / d < 1 / 2 <-> 2 * n < d).
Proof.
  intros Hd. split; intros H.
  - apply (Rmult_lt_compat_r d) in H; [|lra].
    unfold Rdiv in H. rewrite Rmult_assoc, Rinv_l in H by lra. lra.
  - apply (Rmult_lt_reg_r d); [exact Hd|].
    unfold Rdiv. rewrite Rmult_assoc, Rinv_l by lra. lra.
Qed.

(** X9: with [low < mode < high], cdfinv undoes the CDF at a real [x]
    exactly when [x] is in [low..high] and the CDF at [x] lies on the same
    side of one half as [x] of the mode: below the mode with a CDF under one
    half, above it with a CDF of at least one half, or at the mode when the
    mode is half-way between the bounds. *)
Theorem cdfinv_cdf_iff (low mode high x : R) :
  low < mode < high ->
  (cdfinv (Fin low) (Fin mode) (Fin high)
     (cdf (Fin low) (Fin mode) (Fin high) (Fin x)) = Fin x <->
   (low <= x < mode /\
    2 * ((x - low) * (x - low)) < (high - low) * (mode - low)) \/
   (mode < x <= high /\
    2 * ((high - x) * (high - x)) <= (high - low) * (high - mode)) \/
   (x = mode /\ mode - low = high - mode)).
Proof.
  intros Hs. assert (Hv : low <= mode <= high) by lra.
  rewrite cdfinv_cdf_value by assumption.
  assert (Da : 0 < (high - low) * (mode - low)) by nra.
  assert (Db : 0 < (high - low) * (high - mode)) by nra.
  split.
  - intros E. injection E as E. unfold quantile_value in E.
    rewrite (cdf_value_at_mode low mode high) in E by lra.
    destruct (Rlt_dec x low) as [X1|X1].
    { exfalso. unfold cdf_value in E.
      destruct (Rlt_dec x low); [|lra].
      destruct (Rlt_dec 0 (1 / 2)); [|lra].
      replace (0 * (mode - low) * (high - low)) with 0 in E by ring.
      rewrite sqrt_0 in E. lra. }
    destruct (Rle_dec high x) as [X2|X2].
    { destruct (Req_dec_T x high) as [->|N].
      - right; left. split; [lra|]. nra.
      - exfalso. unfold cdf_value in E.
        destruct (Rlt_dec x low); [lra|].
        destruct (Rle_dec high x); [|lra].
        destruct (Rlt_dec 1 (1 / 2)); [lra|].
        replace ((1 - 1) * (high - low) * (high - mode)) with 0 in E by ring.
        rewrite sqrt_0 in E. lra. }
    destruct (Rlt_dec x mode) as [X3|X3].
    { rewrite cdf_value_below in E by lra.
      set (P := (x - low) * (x - low) / ((high - low) * (mode - low))) in *.
      destruct (Rlt_dec P (1 / 2)) as [L|L].
      - left. split; [lra|]. now apply div_lt_half in L.
      - exfalso.
        assert (EP : (x - low) * (x - low) =
                     P * ((high - low) * (mode - low)))
          by (apply div_eq; [lra | reflexivity]).
        assert (P1 : P < 1).
        { unfold P. apply (Rmult_lt_reg_r ((high - low) * (mode - low)));
            [exact Da|].
          unfold Rdiv. rewrite Rmult_assoc, Rinv_l by lra. nra. }
        set (q := (1 - P) * (high - low) * (high - mode)) in *.
        assert (A : 0 <= q)
          by (apply Rmult_le_pos; [apply Rmult_le_pos|]; lra).
        pose proof (sqrt_sqrt q A) as Es.
        set (s := sqrt q) in *.
        assert (Ss : s = high - x) by lra.
        rewrite Ss in Es. unfold q in Es.
        assert (Z : (high - low) *
                    ((mode - x) * (mode - x)) = 0).
        { assert (M : (mode - low) * ((high - x) * (high - x)) =
                      (mode - low) * ((1 - P) * (high - low) * (high - mode)))
            by now rewrite Es.
          replace ((mode - low) * ((1 - P) * (high - low) * (high - mode)))
            with (((high - low) * (mode - low) -
                   P * ((high - low) * (mode - low))) * (high - mode))
            in M by ring.
          rewrite <- EP in M. nra. }
        apply Rmult_integral in Z. destruct Z as [Z|Z]; [lra|].
        apply sqr_zero in Z. lra. }
    destruct (Req_dec_T x mode) as [->|X4].
    { right; right. split; [reflexivity|].
      rewrite cdf_value_at_mode in E by lra.
      destruct (Rlt_dec (1 / 2) (1 / 2)); [lra|].
      set (q := (1 - 1 / 2) * (high - low) * (high - mode)) in *.
      assert (A : 0 <= q) by (unfold q; nra).
      pose proof (sqrt_sqrt q A) as Es.
      assert (Ss : sqrt q = high - mode) by lra.
      rewrite Ss in Es. unfold q in Es. nra. }
    rewrite cdf_value_above in E by lra.
    set (P := (high - x) * (high - x) / ((high - low) * (high - mode))) in *.
    assert (EP : (high - x) * (high - x) =
                 P * ((high - low) * (high - mode)))
      by (apply div_eq; [lra | reflexivity]).
    destruct (Rlt_dec (1 - P) (1 / 2)) as [L|L].
    + exfalso.
      assert (P1 : P < 1).
      { unfold P. apply (Rmult_lt_reg_r ((high - low) * (high - mode)));
          [exact Db|].
        unfold Rdiv. rewrite Rmult_assoc, Rinv_l by lra. nra. }
      set (q := (1 - P) * (mode - low) * (high - low)) in *.
      assert (A : 0 <= q)
        by (apply Rmult_le_pos; [apply Rmult_le_pos|]; lra).
      pose proof (sqrt_sqrt q A) as Es.
      set (s := sqrt q) in *.
      assert (Ss : s = x - low) by lra.
      rewrite Ss in Es. unfold q in Es.
      assert (Z : (high - low) * ((x - mode) * (x - mode)) = 0).
      { assert (M : (high - mode) * ((x - low) * (x - low)) =
                    (high - mode) * ((1 - P) * (mode - low) * (high - low)))
          by now rewrite Es.
        replace ((high - mode) * ((1 - P) * (mode - low) * (high - low)))
          with (((high - low) * (high - mode) -
                 P * ((high - low) * (high - mode))) * (mode - low))
          in M by ring.
        rewrite <- EP in M. nra. }
      apply Rmult_integral in Z. destruct Z as [Z|Z]; [lra|].
      apply sqr_zero in Z. lra.
    + right; left. split; [lra|].
      assert (P <= 1 / 2) by lra. now apply div_le_half in H.
  - intros [[Hx C] | [[Hx C] | [-> C]]]; f_equal; unfold quantile_value;
      rewrite (cdf_value_at_mode low mode high) by lra.
    + rewrite cdf_value_below by lra.
      apply div_lt_half in C; [|exact Da].
      destruct (Rlt_dec _ (1 / 2)) as [L|L]; [|lra].
      replace ((x - low) * (x - low) / ((high - low) * (mode - low)) *
               (mode - low) * (high - low))
        with ((x - low) * (x - low)) by (field; lra).
      rewrite sqrt_square by lra. lra.
    + destruct (Req_dec_T x high) as [->|N].
      * unfold cdf_value. destruct (Rlt_dec high low); [lra|].
        destruct (Rle_dec high high); [|lra].
        destruct (Rlt_dec 1 (1 / 2)); [lra|].
        replace ((1 - 1) * (high - low) * (high - mode)) with 0 by ring.
        rewrite sqrt_0. lra.
      * rewrite cdf_value_above by lra.
        apply div_le_half in C; [|exact Db].
        destruct (Rlt_dec _ (1 / 2)) as [L|L]; [lra|].
        replace ((1 - (1 - (high - x) * (high - x) /
                    ((high - low) * (high - mode)))) *
                 (high - low) * (high - mode))
          with ((high - x) * (high - x)) by (field; lra).
        rewrite sqrt_square by lra. lra.
    + destruct (Rlt_dec (1 / 2) (1 / 2)); [lra|].
      replace ((1 - 1 / 2) * (high - low) * (high - mode))
        with ((high - mode) * (high - mode)) by nra.
      rewrite sqrt_square by lra. lra.
Qed.

(** ** More on construction *)

Lemma less_equal_not_broadcastable (a b : ArrayLike) :
  ~ broadcastable a b -> less_equal a b = Raise BroadcastError.
Proof.
  unfold broadcastable, size, less_equal. intros N.
  destruct (Nat.eqb_spec (List.length (values a)) (List.length (values b)))
    as [E|E]; [tauto|].
  destruct (values a) as [|x [|x' la]], (values b) as [|y [|y' lb]];
    try reflexivity; exfalso; apply N; simpl; tauto.
Qed.

Lemma less_equal_fails (a b : ArrayLike) :
  broadcastable a b -> ~ all_le a b ->
  exists c, less_equal a b = Ok c /\ jnp_all c = false.
Proof.
  intros B N. destruct (less_equal_all a b B) as (c & E & H).
  exists c. split; [exact E|].
  destruct (jnp_all c); [|reflexivity]. exfalso. apply N, H. reflexivity.
Qed.

Lemma less_equal_passes (a b : ArrayLike) :
  broadcastable a b -> all_le a b ->
  exists c, less_equal a b = Ok c /\ jnp_all c = true.
Proof.
  intros B A. destruct (less_equal_all a b B) as (c & E & H).
  exists c. split; [exact E | now apply H].
Qed.

(** X10: the three checks run in the order [low <= high], [low <= mode],
    [mode <= high], and the first that cannot be made or does not hold
    decides the exception: a broadcasting error when the two parameters do
    not broadcast, the assertion error with the message of that check when
    some element is out of order. *)
Theorem init_first_failure (low high mode : ArrayLike) (name : option string) :
  (~ broadcastable low high ->
   __init__ low high mode name = Raise BroadcastError) /\
  (broadcastable low high -> ~ all_le low high ->
   __init__ low high mode name =
     Raise (AssertionError "low must be less than or equal to high")) /\
  (broadcastable low high -> all_le low high -> ~ broadcastable low mode ->
   __init__ low high mode name = Raise BroadcastError) /\
  (broadcastable low high -> all_le low high ->
   broadcastable low mode -> ~ all_le low mode ->
   __init__ low high mode name =
     Raise (AssertionError "low must be less than or equal to mid")) /\
  (broadcastable low high -> all_le low high ->
   broadcastable low mode -> all_le low mode -> ~ broadcastable mode high ->
   __init__ low high mode name = Raise BroadcastError) /\
  (broadcastable low high -> all_le low high ->
   broadcastable low mode -> all_le low mode ->
   broadcastable mode high -> ~ all_le mode high ->
   __init__ low high mode name =
     Raise (AssertionError "mid must be less than or equal to high")).
Proof.
  unfold __init__, check_params, assert_. cbn [_low _mode _high].
  repeat split.
  - intros N. now rewrite less_equal_not_broadcastable.
  - intros B N. destruct (less_equal_fails _ _ B N) as (c & -> & E).
    cbn [bind]. now rewrite E.
  - intros B1 A1 N.
    destruct (less_equal_passes _ _ B1 A1) as (c1 & -> & E1).
    cbn [bind]. rewrite E1. cbn [bind].
    now rewrite less_equal_not_broadcastable.
  - intros B1 A1 B2 N.
    destruct (less_equal_passes _ _ B1 A1) as (c1 & -> & E1).
    destruct (less_equal_fails _ _ B2 N) as (c2 & -> & E2).
    cbn [bind]. rewrite E1. cbn [bind]. now rewrite E2.
  - intros B1 A1 B2 A2 N.
    destruct (less_equal_passes _ _ B1 A1) as (c1 & -> & E1).
    destruct (less_equal_passes _ _ B2 A2) as (c2 & -> & E2).
    cbn [bind]. rewrite E1. cbn [bind]. rewrite E2. cbn [bind].
    now rewrite less_equal_not_broadcastable.
  - intros B1 A1 B2 A2 B3 N.
    destruct (less_equal_passes _ _ B1 A1) as (c1 & -> & E1).
    destruct (less_equal_passes _ _ B2 A2) as (c2 & -> & E2).
    destruct (less_equal_fails _ _ B3 N) as (c3 & -> & E3).
    cbn [bind]. rewrite E1. cbn [bind]. rewrite E2. cbn [bind]. now rewrite E3.
Qed.

(** X11: the default mode [0.5] binds the shorter calls: with two positional
    numbers the call succeeds exactly when [low <= 0.5 <= high], and with one
    exactly when [low <= 0.5]. *)
Theorem call_needs_default_mode_inside (low high : ArrayLike) (l h : xreal)
    (name : option string) :
  values low = [l] -> values high = [h] ->
  (Triangular_call [low; high] name =
     Ok {| _low := low; _mode := PyFloat 0.5; _high := high; _name := name |}
   <-> xle l (Fin (1/2)) = true /\ xle (Fin (1/2)) h = true) /\
  (Triangular_call [low] name =
     Ok {| _low := low; _mode := PyFloat 0.5; _high := PyInt 1; _name := name |}
   <-> xle l (Fin (1/2)) = true).
Proof.
  intros Hl Hh.
  assert (Hm : values (PyFloat 0.5) = [Fin (1/2)])
    by (cbn [values]; now rewrite float_val_half).
  assert (G : forall hi x, values hi = [x] ->
            (__init__ low hi (PyFloat 0.5) name =
               Ok {| _low := low; _mode := PyFloat 0.5; _high := hi;
                     _name := name |}
             <-> valid l (Fin (1/2)) x)).
  { intros hi x Hx. split.
    - intros E. apply (ordered_scalar low (PyFloat 0.5) hi); try assumption.
      unfold __init__ in E.
      assert (B1 : broadcastable low hi)
        by (left; unfold size; now rewrite Hl, Hx).
      assert (B2 : broadcastable low (PyFloat 0.5))
        by (left; unfold size; now rewrite Hl, Hm).
      assert (B3 : broadcastable (PyFloat 0.5) hi)
        by (left; unfold size; now rewrite Hm, Hx).
      destruct (check_params_cases
                  {| _low := low; _mode := PyFloat 0.5; _high := hi;
                     _name := None |} B1 B2 B3)
        as [[Ho _] | [_ [msg E']]]; cbn [_low _mode _high] in *.
      + exact Ho.
      + rewrite E' in E. discriminate.
    - intros V. now apply (init_scalars low hi (PyFloat 0.5) l x (Fin (1/2))). }
  split.
  - cbn [Triangular_call]. apply G. exact Hh.
  - cbn [Triangular_call]. rewrite (G (PyInt 1) (Fin 1) eq_refl).
    unfold valid. split; [tauto|]. intros H. split; [exact H|].
    xeval. reflexivity.
Qed.

(** ** Instances of the further properties *)

(** X3 at [(0, 1, 3)] and [x = 2]. *)
Lemma logpdf_log_density_witness :
  0 <= 1 <= 3 /\ 0 < 3 /\
  0 <= triangular_density 0 1 3 2 /\
  logpdf (Fin 0) (Fin 1) (Fin 3) (Fin 2) =
    xlog (Fin (triangular_density 0 1 3 2)).
Proof.
  assert (H1 : 0 <= 1 <= 3) by lra. assert (H2 : 0 < 3) by lra.
  exact (conj H1 (conj H2 (logpdf_log_density 0 1 3 2 H1 H2))).
Defined.

(** X4 at [(0, 1, 3)]. *)
Lemma logpdf_unimodal_witness :
  0 <= 1 <= 3 /\ 0 < 3 /\
  (forall x1 x2, x1 <= x2 <= 1 ->
     xle (logpdf (Fin 0) (Fin 1) (Fin 3) (Fin x1))
         (logpdf (Fin 0) (Fin 1) (Fin 3) (Fin x2)) = true) /\
  (forall x1 x2, 1 <= x1 <= x2 ->
     xle (logpdf (Fin 0) (Fin 1) (Fin 3) (Fin x2))
         (logpdf (Fin 0) (Fin 1) (Fin 3) (Fin x1)) = true) /\
  (forall x,
     xle (logpdf (Fin 0) (Fin 1) (Fin 3) (Fin x))
         (logpdf (Fin 0) (Fin 1) (Fin 3) (Fin 1)) = true).
Proof.
  assert (H1 : 0 <= 1 <= 3) by lra. assert (H2 : 0 < 3) by lra.
  exact (conj H1 (conj H2 (logpdf_unimodal 0 1 3 H1 H2))).
Defined.

(** X5 at [(0, 1, 3)] and [x = 2]. *)
Lemma cdf_in_unit_interval_witness :
  0 <= 1 <= 3 /\
  logcdf (Fin 0) (Fin 1) (Fin 3) (Fin 2) = xlog (Fin (cdf_value 0 1 3 2)) /\
  cdf (Fin 0) (Fin 1) (Fin 3) (Fin 2) = Fin (cdf_value 0 1 3 2) /\
  0 <= cdf_value 0 1 3 2 <= 1 /\
  xle (logcdf (Fin 0) (Fin 1) (Fin 3) (Fin 2)) (Fin 0) = true.
Proof.
  assert (H : 0 <= 1 <= 3) by lra.
  exact (conj H (cdf_in_unit_interval 0 1 3 2 H)).
Defined.

(** X6 at [(0, 1, 3)], where the mode is off the centre. *)
Lemma logcdf_monotone_iff_centred_witness :
  0 < 1 < 3 /\
  ((forall x1 x2, x1 <= x2 ->
      xle (logcdf (Fin 0) (Fin 1) (Fin 3) (Fin x1))
          (logcdf (Fin 0) (Fin 1) (Fin 3) (Fin x2)) = true) <->
   1 - 0 = 3 - 1).
Proof.
  assert (H : 0 < 1 < 3) by lra.
  exact (conj H (logcdf_monotone_iff_centred 0 1 3 H)).
Defined.

(** X7 at [(0, 1, 3)], across the threshold. *)
Lemma cdfinv_monotone_witness :
  0 <= 1 <= 3 /\ 0 <= 1 / 4 /\ 1 / 4 <= 3 / 4 /\ 3 / 4 <= 1 /\
  xle (cdfinv (Fin 0) (Fin 1) (Fin 3) (Fin (1 / 4)))
      (cdfinv (Fin 0) (Fin 1) (Fin 3) (Fin (3 / 4))) = true.
Proof.
  assert (H1 : 0 <= 1 <= 3) by lra. assert (H2 : 0 <= 1 / 4) by lra.
  assert (H3 : 1 / 4 <= 3 / 4) by lra. assert (H4 : 3 / 4 <= 1) by lra.
  exact (conj H1 (conj H2 (conj H3 (conj H4
           (cdfinv_monotone 0 1 3 (1 / 4) (3 / 4) H1 H2 H3 H4))))).
Defined.

(** X8 at [(0, 1, 3)] and [p = 2/5], between the probability below the
    mode and one half, where the round trip fails. *)
Lemma cdf_cdfinv_iff_witness :
  0 < 1 < 3 /\ 0 <= 2 / 5 <= 1 /\
  (cdf (Fin 0) (Fin 1) (Fin 3)
     (cdfinv (Fin 0) (Fin 1) (Fin 3) (Fin (2 / 5))) = Fin (2 / 5) <->
   (2 / 5 < 1 / 2 /\ 2 / 5 * (3 - 0) < 1 - 0) \/
   (1 / 2 <= 2 / 5 /\ 1 - 0 < 2 / 5 * (3 - 0)) \/
   (2 / 5 = 1 / 2 /\ 1 - 0 = 3 - 1)).
Proof.
  assert (H1 : 0 < 1 < 3) by lra. assert (H2 : 0 <= 2 / 5 <= 1) by lra.
  exact (conj H1 (conj H2 (cdf_cdfinv_iff 0 1 3 (2 / 5) H1 H2))).
Defined.

(** X9 at [(0, 2, 8)] and [x = 3], where the round trip fails. *)
Lemma cdfinv_cdf_iff_witness :
  0 < 2 < 8 /\
  (cdfinv (Fin 0) (Fin 2) (Fin 8)
     (cdf (Fin 0) (Fin 2) (Fin 8) (Fin 3)) = Fin 3 <->
   (0 <= 3 < 2 /\ 2 * ((3 - 0) * (3 - 0)) < (8 - 0) * (2 - 0)) \/
   (2 < 3 <= 8 /\ 2 * ((8 - 3) * (8 - 3)) <= (8 - 0) * (8 - 2)) \/
   (3 = 2 /\ 2 - 0 = 8 - 2)).
Proof.
  assert (H : 0 < 2 < 8) by lra.
  exact (conj H (cdfinv_cdf_iff 0 2 8 3 H)).
Defined.

(** X11 at [low = 0] and [high = 1]. *)
Lemma call_needs_default_mode_inside_witness :
  values (PyInt 0) = [Fin 0] /\ values (PyInt 1) = [Fin 1] /\
  (Triangular_call [PyInt 0; PyInt 1] None =
     Ok {| _low := PyInt 0; _mode := PyFloat 0.5; _high := PyInt 1;
           _name := None |}
   <-> xle (Fin 0) (Fin (1/2)) = true /\ xle (Fin (1/2)) (Fin 1) = true) /\
  (Triangular_call [PyInt 0] None =
     Ok {| _low := PyInt 0; _mode := PyFloat 0.5; _high := PyInt 1;
           _name := None |}
   <-> xle (Fin 0) (Fin (1/2)) = true).
Proof.
  exact (conj eq_refl (conj eq_refl
           (call_needs_default_mode_inside (PyInt 0) (PyInt 1) (Fin 0) (Fin 1)
              None eq_refl eq_refl))).
Defined.
